(** * Disc relaxation ([lista6-final/discs.py]): model and verified properties

    The module keeps a Python list of discs.  A disc is the tuple
    [([x, y], r)]: an immutable pair whose first component is a reference
    to a mutable two-element list (the centre) and whose second component
    is the radius.  The functions [uncollide], [push2area] and
    [process_list] update centres in place through those references, draw
    random numbers, read the clock and print.

    The embedding below follows that shape:
    - numbers are real numbers (the data model of the specification);
      rounding of machine floats is not represented, while Python's
      [ZeroDivisionError] on a zero divisor is;
    - centre vectors live in a store indexed by locations, so that two
      discs (or two list slots) can share one centre object;
    - the list object, the store, the position in the random stream, the
      number of clock readings and the printed output form the [world];
    - code is written in a state-and-exception monad over [world];
    - the [while] loop of [process_list] takes a fuel argument and reports
      [Spin] when the fuel is used up while the loop is still running.
    List indices are natural numbers, as produced by [range(n)] in
    [process_list]; an index past the end raises [IndexError].

    Around the relaxation core the file also covers [gen_discs] (each
    [make_disc] places its new centre vector at a location named by the
    caller, [base + i] for slot [i]), the plotting functions
    [dlist2plot], [area2plot] and [plot_uncolliding] (an axes object is
    the list of the patches added to it; the other calls on the figure
    are recorded as events) and [suppress_qt_debug] ([os.environ] is a
    function from names to optional values). *)

From Stdlib Require Import String.
From Stdlib Require Import Reals Lra Lia List Arith Bool.
Import ListNotations.

Open Scope R_scope.

(** ** Data model *)

Definition loc := nat.
Definition vec := (R * R)%type.
(** A disc tuple [(vec, r)]: reference to the centre, and the radius. *)
Definition disc := (loc * R)%type.
(** [area = ((x_0, x_m), (y_0, y_m))]. *)
Definition area_t := ((R * R) * (R * R))%type.

Inductive exn := IndexError | ZeroDivisionError.

(** What [print] and [warn] emit. *)
Inductive event :=
| PrintRemoving (n : nat)
| PrintChecking (pairs : nat)
| Warning
| PrintDone (elapsed : R) (m : nat).

(** Python values a call may hand back to its caller. *)
Inductive pyval :=
| PyNone
| PyInt (z : Z)
| PyFloat (r : R)
| PyPair (a b : pyval).

Record world := World {
  dlist : list disc;      (* the list object passed as [dlist] *)
  vecs : loc -> vec;      (* contents of the centre vectors *)
  draws : nat;            (* calls of [random()] made so far *)
  ticks : nat;            (* calls of [time()] made so far *)
  out : list event        (* messages emitted so far, oldest first *)
}.

Definition upd (f : loc -> vec) (l : loc) (v : vec) : loc -> vec :=
  fun l' => if Nat.eqb l' l then v else f l'.

Definition set_vecs (w : world) (f : loc -> vec) : world :=
  World (dlist w) f (draws w) (ticks w) (out w).
Definition set_draws (w : world) (n : nat) : world :=
  World (dlist w) (vecs w) n (ticks w) (out w).
Definition set_ticks (w : world) (n : nat) : world :=
  World (dlist w) (vecs w) (draws w) n (out w).
Definition set_out (w : world) (o : list event) : world :=
  World (dlist w) (vecs w) (draws w) (ticks w) o.

(** ** The monad *)

Inductive res (A : Type) :=
| Ok (a : A) (w : world)        (* normal return *)
| Raise (e : exn) (w : world)   (* an exception propagates *)
| Spin (w : world).             (* the loop is still running *)
Arguments Ok {A} a w.
Arguments Raise {A} e w.
Arguments Spin {A} w.

Definition M (A : Type) := world -> res A.

Definition ret {A} (a : A) : M A := fun w => Ok a w.
Definition raise {A} (e : exn) : M A := fun w => Raise e w.
Definition bind {A B} (c : M A) (k : A -> M B) : M B :=
  fun w => match c w with
           | Ok a w' => k a w'
           | Raise e w' => Raise e w'
           | Spin w' => Spin w'
           end.

Notation "x <- c ;; k" := (bind c (fun x => k))
  (at level 61, c at next level, right associativity).
Notation "c ;;; k" := (bind c (fun _ => k))
  (at level 61, right associativity).

(** The world in which a computation stopped, whatever the outcome. *)
Definition final {A} (r : res A) : world :=
  match r with Ok _ w => w | Raise _ w => w | Spin w => w end.

(** ** Primitive operations *)

(** [dlist[n]] *)
Definition getitem (n : nat) : M disc :=
  fun w => match nth_error (dlist w) n with
           | Some d => Ok d w
           | None => Raise IndexError w
           end.

(** [len(dlist)] *)
Definition len : M nat := fun w => Ok (length (dlist w)) w.

(** Reading a centre vector through its reference. *)
Definition load (l : loc) : M vec := fun w => Ok (vecs w l) w.

(** [v[0] = a] and [v[1] = a] on the vector at [l]. *)
Definition set0 (f : loc -> vec) (l : loc) (a : R) : loc -> vec :=
  upd f l (a, snd (f l)).
Definition set1 (f : loc -> vec) (l : loc) (a : R) : loc -> vec :=
  upd f l (fst (f l), a).
Definition setitem0 (l : loc) (a : R) : M unit :=
  fun w => Ok tt (set_vecs w (set0 (vecs w) l a)).
Definition setitem1 (l : loc) (a : R) : M unit :=
  fun w => Ok tt (set_vecs w (set1 (vecs w) l a)).

(** Float division: Python raises on a zero divisor. *)
Definition pydiv (x y : R) : M R :=
  if Req_dec_T y 0 then raise ZeroDivisionError else ret (x / y).

Definition print (e : event) : M unit :=
  fun w => Ok tt (set_out w (out w ++ [e])).
Definition warn : M unit := print Warning.

(** ** Pure vector helpers *)

Definition make_vec (x y : R) : vec := (x, y).

Definition add_vec (vec1 vec2 : vec) (c : R) : vec :=
  (fst vec1 + c * fst vec2, snd vec1 + c * snd vec2).

Definition vec_len (v : vec) : R := sqrt (fst v ^ 2 + snd v ^ 2).

Definition make_disc_vec (v : loc) (r : R) : disc := (v, r).

(** [combinations(range(n), 2)] *)
Fixpoint combinations2 {A} (l : list A) : list (A * A) :=
  match l with
  | [] => []
  | x :: t => map (pair x) t ++ combinations2 t
  end.

(** ** Plotting *)

(** What is handed to [ax.add_patch]: [plt.Circle((x, y), r, alpha=...,
    color=...)] and [plt.Rectangle((x, y), width, height, color=...,
    fill=..., linestyle=...)]; an axes object is the list of its patches,
    oldest first. *)
Inductive patch :=
| Circle (x y r alpha : R) (color : string)
| Rectangle (x y width height : R) (color : string) (fill : bool)
    (linestyle : string).
Definition axes := list patch.

(** The calls on the figure and on [plt] that add no patch. *)
Inductive gui_event :=
| CloseAll
| Subplots (nrows ncols : nat)
| AutoscaleView (i : nat)
| SetAspect (i : nat) (aspect : string)
| SetTitle (i : nat) (title : string)
| Show.

(** [islice(cycle(palette), n)]: [cycle] yields the items of the
    palette, keeping a copy, then the items of the copy again and again,
    and nothing at all when the copy is empty. *)
Fixpoint islice_cycle (saved cur : list string) (n : nat) : list string :=
  match n with
  | O => []
  | S n' =>
      match cur with
      | c :: rest => c :: islice_cycle saved rest n'
      | [] =>
          match saved with
          | [] => []
          | c :: rest => c :: islice_cycle saved rest n'
          end
      end
  end.

(** [clr[i] if p else clr]: [clr] is one colour ([p] false) or a list of
    colours ([p] true). *)
Definition pick_color (clr : string + list string) (i : nat) : M string :=
  match clr with
  | inl c => ret c
  | inr l => match nth_error l i with
             | Some c => ret c
             | None => raise IndexError
             end
  end.

(** [for i, disc in enumerate(dlist): ax.add_patch(plt.Circle(...))] *)
Fixpoint plot_loop (items : list (nat * disc)) (clr : string + list string)
    (ax : axes) : M axes :=
  match items with
  | [] => ret ax
  | (i, d) :: rest =>
      c <- load (fst d) ;;
      color <- pick_color clr i ;;
      plot_loop rest clr (ax ++ [Circle (fst c) (snd c) (snd d) 0.4 color])
  end.

Definition dlist2plot (ax : axes) (palette : option (list string)) : M axes :=
  n <- len ;;
  let clr := match palette with
             | None => inl "#5B9279"%string
             | Some pal => inr (islice_cycle pal pal n)
             end in
  items <- (fun w => Ok (combine (seq 0 (length (dlist w))) (dlist w)) w) ;;
  plot_loop items clr ax.

Definition area2plot (area : area_t) (ax : axes) (clr : string) : axes :=
  ax ++ [Rectangle (fst (fst area)) (fst (snd area))
           (snd (fst area) - fst (fst area))
           (snd (snd area) - fst (snd area)) clr false "--"%string].

(** [os.environ], and [suppress_qt_debug]: [del] raises [KeyError] on a
    missing key ([None] below), which the [try] swallows. *)
Definition environ := string -> option string.
Definition env_set (env : environ) (k v : string) : environ :=
  fun k' => if String.eqb k' k then Some v else env k'.
Definition env_del (env : environ) (k : string) : option environ :=
  match env k with
  | Some _ => Some (fun k' => if String.eqb k' k then None else env k')
  | None => None
  end.
Definition suppress_qt_debug (env : environ) : environ :=
  let env := env_set env "QT_LOGGING_RULES" "*.debug=false" in
  match env_del env "SESSION_MANAGER" with
  | Some env' => env'
  | None => env
  end.

(** ** Sample inputs *)

(** A random source that always yields 1/2 (so [uniform(1.001, 2)] is
    1.5005 and [uniform(1, 2)] is 1.5), one that always yields 9/10, and
    a clock that advances by one unit per reading. *)
Definition rnd_half : nat -> R := fun _ => 1 / 2.
Definition rnd_high : nat -> R := fun _ => 9 / 10.
Definition clock_unit : nat -> R := INR.

Definition two_centres (c0 c1 : vec) : loc -> vec :=
  fun l => match l with O => c0 | _ => c1 end.

(** Two discs of radius 1 at (0,0) and (1,0); at (0,0) and (3,0); both
    at (5,5). *)
Definition w_overlap : world :=
  World [(0%nat, 1); (1%nat, 1)] (two_centres (0, 0) (1, 0)) 0 0 [].
Definition w_apart : world :=
  World [(0%nat, 1); (1%nat, 1)] (two_centres (0, 0) (3, 0)) 0 0 [].
Definition w_coincident : world :=
  World [(0%nat, 1); (1%nat, 1)] (two_centres (5, 5) (5, 5)) 0 0 [].

(** Slots 0 and 2 hold discs with one and the same centre object. *)
Definition w_shared : world :=
  World [(0%nat, 1); (1%nat, 1); (0%nat, 1)] (two_centres (0, 0) (1, 0)) 0 0 [].
(** Three discs, three centre objects. *)
Definition w_three : world :=
  World [(0%nat, 1); (1%nat, 1); (2%nat, 1)] (two_centres (0, 0) (1, 0)) 0 0 [].

(** A disc of radius 2 at (-14, 0), and the area [-15,15] x [-15,15]. *)
Definition w_left : world :=
  World [(0%nat, 2)] (two_centres (-14, 0) (0, 0)) 0 0 [].
Definition area15 : area_t := ((-15, 15), (-15, 15)).

(** A disc of radius 1 at (-1/2, 0) in an area that is 2.5 wide. *)
Definition w_narrow : world :=
  World [(0%nat, 1)] (two_centres (-1 / 2, 0) (0, 0)) 0 0 [].
Definition area_narrow : area_t := ((-1, 3 / 2), (-15, 15)).

(** An area one unit wide, the radius limits and the first two colours
    used by [main], and an environment with no variable set. *)
Definition area_tiny : area_t := ((0, 1), (-15, 15)).
Definition r_lims_main : R * R := (0.3, 0.7).
Definition palette_two : list string := ["#DC3522"%string; "#e45d4e"%string].
Definition env_empty : string -> option string := fun _ => None.

Section Discs.

(** The random source: [random_src i] is what the [i]-th call of
    [random()] returns.  The clock: [clock i] is the [i]-th reading of
    [time()]. *)
Variable random_src : nat -> R.
Variable clock : nat -> R.

Definition random : M R :=
  fun w => Ok (random_src (draws w)) (set_draws w (S (draws w))).

(** [random.uniform(a, b)] is [a + (b - a) * random()]. *)
Definition uniform_of (a b u : R) : R := a + (b - a) * u.
Definition uniform (a b : R) : M R :=
  u <- random ;; ret (uniform_of a b u).

Definition time : M R :=
  fun w => Ok (clock (ticks w)) (set_ticks w (S (ticks w))).

(** [disc[0][0] += c*vec[0]; disc[0][1] += c*vec[1]] *)
Definition move_disc (d : disc) (v : vec) (c : R) : M unit :=
  p <- load (fst d) ;;
  setitem0 (fst d) (fst p + c * fst v) ;;;
  q <- load (fst d) ;;
  setitem1 (fst d) (snd q + c * snd v).


(** The expressions [dlist[n][0]], [dlist[n][0][0]], [dlist[n][0][1]]
    and [dlist[n][1]]. *)
Definition center (n : nat) : M vec := d <- getitem n ;; load (fst d).
Definition coord0 (n : nat) : M R := c <- center n ;; ret (fst c).
Definition coord1 (n : nat) : M R := c <- center n ;; ret (snd c).
Definition radius (n : nat) : M R := d <- getitem n ;; ret (snd d).

(** The assignments [dlist[n][0][0] = a] and [dlist[n][0][1] = a]. *)
Definition set_coord0 (n : nat) (a : R) : M unit :=
  d <- getitem n ;; setitem0 (fst d) a.
Definition set_coord1 (n : nat) (a : R) : M unit :=
  d <- getitem n ;; setitem1 (fst d) a.

Definition uncollide (n1 n2 : nat) : M bool :=
  c2 <- center n2 ;;
  c1 <- center n1 ;;
  let between := add_vec c2 c1 (-1) in
  r1 <- radius n1 ;;
  r2 <- radius n2 ;;
  let r_sum := r1 + r2 in
  let l := vec_len between in
  if Rlt_dec l r_sum then
    let mid := (fst between / 2, snd between / 2) in
    let l := vec_len between in
    let x := r_sum - l in
    k <- uniform 1.001 2 ;;
    let x := x * k in
    let l_mid := l / 2 in
    d1 <- getitem n1 ;;
    q <- pydiv x (2 * l_mid) ;;
    move_disc d1 mid (- q) ;;;
    d2 <- getitem n2 ;;
    q <- pydiv x (2 * l_mid) ;;
    move_disc d2 mid q ;;;
    ret true
  else
    ret false.

Definition push2area (n : nat) (area : area_t) : M bool :=
  let flag := false in
  x <- coord0 n ;;
  r <- radius n ;;
  flag <-
    (if Rlt_dec (x - r) (fst (fst area)) then
       r <- radius n ;;
       k <- uniform 1 2 ;;
       set_coord0 n (fst (fst area) + r * k) ;;;
       ret true
     else
       x <- coord0 n ;;
       r <- radius n ;;
       if Rgt_dec (x + r) (snd (fst area)) then
         r <- radius n ;;
         k <- uniform 1 2 ;;
         set_coord0 n (snd (fst area) - r * k) ;;;
         ret true
       else ret flag) ;;
  y <- coord1 n ;;
  r <- radius n ;;
  if Rlt_dec (y - r) (fst (snd area)) then
    r <- radius n ;;
    k <- uniform 1 2 ;;
    set_coord1 n (fst (snd area) + r * k) ;;;
    ret true
  else
    y <- coord1 n ;;
    r <- radius n ;;
    if Rgt_dec (y + r) (snd (snd area)) then
      r <- radius n ;;
      k <- uniform 1 2 ;;
      set_coord1 n (snd (snd area) - r * k) ;;;
      ret true
    else ret flag.

(** [for i in combs: if uncollide(dlist,i[0],i[1]): flag = True] *)
Fixpoint for_combs (combs : list (nat * nat)) (flag : bool) : M bool :=
  match combs with
  | [] => ret flag
  | i :: rest =>
      b <- uncollide (fst i) (snd i) ;;
      for_combs rest (if b then true else flag)
  end.

(** [for i in rng: if push2area(dlist,i,area): flag = True] *)
Fixpoint for_rng (rng : list nat) (area : area_t) (flag : bool) : M bool :=
  match rng with
  | [] => ret flag
  | i :: rest =>
      b <- push2area i area ;;
      for_rng rest area (if b then true else flag)
  end.

(** [if m > 120: warn(WARNING_MSG, category=RuntimeWarning)] *)
Definition advisory (m : nat) : M unit :=
  if Nat.ltb 120 m then warn else ret tt.

(** The [while flag:] loop, entered with [flag = True] and counter [m];
    it yields the final value of [m]. *)
Fixpoint while_flag (fuel : nat) (combs : list (nat * nat)) (rng : list nat)
    (area : area_t) (m : nat) : M nat :=
  match fuel with
  | O => fun w => Spin w
  | S fuel' =>
      let flag := false in
      let m := S m in
      flag <- for_combs combs flag ;;
      flag <- for_rng rng area flag ;;
      advisory m ;;;
      if flag then while_flag fuel' combs rng area m else ret m
  end.

Definition process_list (fuel : nat) (area : area_t) : M pyval :=
  n <- len ;;
  let combs := combinations2 (seq 0 n) in
  let rng := seq 0 n in
  let m := O in
  print (PrintRemoving n) ;;;
  print (PrintChecking ((n - 1) * n / 2)%nat) ;;;
  begin <- time ;;
  m <- while_flag fuel combs rng area m ;;
  end_ <- time ;;
  print (PrintDone (end_ - begin) m) ;;;
  ret PyNone.

(** ** Closed forms and observations used in the statements *)

(** The store after [move_disc] on the vector at [l]. *)
Definition moved (f : loc -> vec) (l : loc) (v : vec) (c : R) : loc -> vec :=
  let f1 := set0 f l (fst (f l) + c * fst v) in
  set1 f1 l (snd (f1 l) + c * snd v).

(** [uncollide] on two indices in range. *)
Definition uncollide_closed (d1 d2 : disc) (w : world) : res bool :=
  let between := add_vec (vecs w (fst d2)) (vecs w (fst d1)) (-1) in
  let r_sum := snd d1 + snd d2 in
  let l := vec_len between in
  if Rlt_dec l r_sum then
    let mid := (fst between / 2, snd between / 2) in
    let x := (r_sum - l) * uniform_of 1.001 2 (random_src (draws w)) in
    let w1 := set_draws w (S (draws w)) in
    if Req_dec_T (2 * (l / 2)) 0 then Raise ZeroDivisionError w1
    else
      let q := x / (2 * (l / 2)) in
      Ok true (set_vecs w1
                 (moved (moved (vecs w) (fst d1) mid (- q)) (fst d2) mid q))
  else Ok false w.

(** One axis of [push2area]: the test on the lower bound, then (elif) on
    the upper bound, with the draw consumed by the branch taken. *)
Definition push_axis0 (l : loc) (r lo hi : R) (w : world) : bool * world :=
  let k := uniform_of 1 2 (random_src (draws w)) in
  let w1 := set_draws w (S (draws w)) in
  if Rlt_dec (fst (vecs w l) - r) lo then
    (true, set_vecs w1 (set0 (vecs w) l (lo + r * k)))
  else if Rgt_dec (fst (vecs w l) + r) hi then
    (true, set_vecs w1 (set0 (vecs w) l (hi - r * k)))
  else (false, w).

Definition push_axis1 (l : loc) (r lo hi : R) (w : world) : bool * world :=
  let k := uniform_of 1 2 (random_src (draws w)) in
  let w1 := set_draws w (S (draws w)) in
  if Rlt_dec (snd (vecs w l) - r) lo then
    (true, set_vecs w1 (set1 (vecs w) l (lo + r * k)))
  else if Rgt_dec (snd (vecs w l) + r) hi then
    (true, set_vecs w1 (set1 (vecs w) l (hi - r * k)))
  else (false, w).

Definition push2area_closed (d : disc) (area : area_t) (w : world) : res bool :=
  let s0 := push_axis0 (fst d) (snd d) (fst (fst area)) (snd (fst area)) w in
  let s1 := push_axis1 (fst d) (snd d) (fst (snd area)) (snd (snd area))
              (snd s0) in
  Ok (if fst s1 then true else fst s0) (snd s1).

(** The centre of a disc and the distance between two centres, read in a
    given world. *)
Definition center_of (w : world) (d : disc) : vec := vecs w (fst d).
Definition distance (w : world) (d1 d2 : disc) : R :=
  vec_len (add_vec (center_of w d2) (center_of w d1) (-1)).

(** The next draw of [uniform(1.001, 2)] in world [w]. *)
Definition next_k (w : world) : R :=
  uniform_of 1.001 2 (random_src (draws w)).

(** The disc lies within the area's closed interval on the first
    (second) axis. *)
Definition inside0 (w : world) (d : disc) (area : area_t) : Prop :=
  fst (fst area) <= fst (center_of w d) - snd d /\
  fst (center_of w d) + snd d <= snd (fst area).
Definition inside1 (w : world) (d : disc) (area : area_t) : Prop :=
  fst (snd area) <= snd (center_of w d) - snd d /\
  snd (center_of w d) + snd d <= snd (snd area).

(** The [i]-th draw of [uniform(1, 2)]. *)
Definition margin (i : nat) : R := uniform_of 1 2 (random_src i).

(** What a caller sees of the disc in slot [i]: its centre and radius. *)
Definition disc_at (w : world) (i : nat) : option (vec * R) :=
  match nth_error (dlist w) i with
  | Some d => Some (vecs w (fst d), snd d)
  | None => None
  end.

(** The radii of the discs, in list order. *)
Definition radii (w : world) : list R := map snd (dlist w).

(** A component of the world that a computation leaves as it found it,
    however it ends. *)
Definition preserves {A B} (proj : world -> B) (c : M A) : Prop :=
  forall w, proj (final (c w)) = proj w.

(** Components that writing a centre, drawing a random number and
    printing do not touch. *)
Class Untouched {B} (proj : world -> B) : Prop := {
  untouched_vecs : forall w f, proj (set_vecs w f) = proj w;
  untouched_draws : forall w n, proj (set_draws w n) = proj w;
  untouched_out : forall w o, proj (set_out w o) = proj w
}.

(** Slots [i] and [j] hold discs whose centre is one and the same vector
    object (in particular when [i = j] is in range). *)
Definition shares_center (w : world) (i j : nat) : Prop :=
  exists di dj,
    nth_error (dlist w) i = Some di /\
    nth_error (dlist w) j = Some dj /\
    fst di = fst dj.

(** The two invariants the driver is to establish. *)
Definition no_overlap (w : world) : Prop :=
  forall i j di dj,
    i <> j ->
    nth_error (dlist w) i = Some di ->
    nth_error (dlist w) j = Some dj ->
    snd di + snd dj <= distance w di dj.

Definition all_inside (w : world) (area : area_t) : Prop :=
  forall i d,
    nth_error (dlist w) i = Some d ->
    inside0 w d area /\ inside1 w d area.

(** The pair of slots is in range and its discs do not overlap. *)
Definition apart (w : world) (ij : nat * nat) : Prop :=
  exists di dj,
    nth_error (dlist w) (fst ij) = Some di /\
    nth_error (dlist w) (snd ij) = Some dj /\
    snd di + snd dj <= distance w di dj.

(** The slot is in range and its disc lies within the area. *)
Definition within (area : area_t) (w : world) (i : nat) : Prop :=
  exists d,
    nth_error (dlist w) i = Some d /\ inside0 w d area /\ inside1 w d area.

(** The world in which the loop of [process_list] starts: the two
    messages are out and the clock has been read once. *)
Definition loop_entry (w : world) : world :=
  let n := length (dlist w) in
  World (dlist w) (vecs w) (draws w) (S (ticks w))
        ((out w ++ [PrintRemoving n]) ++ [PrintChecking ((n - 1) * n / 2)%nat]).

(** The world [process_list] returns in, given the world [w4] in which
    the loop stopped after [m] passes. *)
Definition loop_exit (begin : R) (m : nat) (w4 : world) : world :=
  World (dlist w4) (vecs w4) (draws w4) (S (ticks w4))
        (out w4 ++ [PrintDone (clock (ticks w4) - begin) m]).

(** The contract of [random.random()]: every draw lies in [0, 1). *)
Definition unit_draws : Prop := forall i, 0 <= random_src i < 1.

(** Two worlds that a caller cannot tell apart: same list, same contents
    of every centre vector, same position in the random stream, same
    number of clock readings, same output. *)
Definition same_world (w1 w2 : world) : Prop :=
  dlist w1 = dlist w2 /\ (forall l, vecs w1 l = vecs w2 l) /\
  draws w1 = draws w2 /\ ticks w1 = ticks w2 /\ out w1 = out w2.

(** Two outcomes of the same kind, with the same value, in worlds that
    cannot be told apart. *)
Definition same_outcome {A} (r1 r2 : res A) : Prop :=
  match r1, r2 with
  | Ok a1 w1, Ok a2 w2 => a1 = a2 /\ same_world w1 w2
  | Raise e1 w1, Raise e2 w2 => e1 = e2 /\ same_world w1 w2
  | Spin w1, Spin w2 => same_world w1 w2
  | _, _ => False
  end.

(** An outcome other than an [IndexError]. *)
Definition no_index_error {A} (r : res A) : Prop :=
  match r with Raise IndexError _ => False | _ => True end.

(** ** Generation of discs *)

(** Writing a whole vector at a location. *)
Definition store_vec (l : loc) (v : vec) : M unit :=
  fun w => Ok tt (set_vecs w (upd (vecs w) l v)).

(** [make_disc(x, y, r)] returns [([x, y], r)]: the list [[x, y]] is a
    new object, and [l] is the location it is given. *)
Definition make_disc (l : loc) (x y r : R) : M disc :=
  store_vec l (x, y) ;;; ret (l, r).

(** A list under construction: [None] marks a slot of [[None]*n] not yet
    assigned. *)
Fixpoint set_nth {A} (l : list A) (i : nat) (a : A) : list A :=
  match l, i with
  | [], _ => []
  | _ :: t, O => a :: t
  | x :: t, S i' => x :: set_nth t i' a
  end.

(** [dlist[i] = d] *)
Definition assign (dl : list (option disc)) (i : nat) (d : disc)
  : M (list (option disc)) :=
  if Nat.ltb i (length dl) then ret (set_nth dl i (Some d))
  else raise IndexError.

(** The body of [for i in range(n)] in [gen_discs]; the centre of the
    disc for slot [i] is placed at location [base + i]. *)
Fixpoint gen_loop (idxs : list nat) (base : loc) (area : area_t)
    (r_lims : R * R) (dl : list (option disc)) : M (list (option disc)) :=
  match idxs with
  | [] => ret dl
  | i :: rest =>
      r <- uniform (fst r_lims) (snd r_lims) ;;
      posx <- uniform (fst (fst area) + r) (snd (fst area) - r) ;;
      posy <- uniform (fst (snd area) + r) (snd (snd area) - r) ;;
      d <- make_disc (base + i)%nat posx posy r ;;
      dl <- assign dl i d ;;
      gen_loop rest base area r_lims dl
  end.

Definition gen_discs (base : loc) (n : nat) (area : area_t) (r_lims : R * R)
  : M (list (option disc)) :=
  let dl := repeat None n in
  gen_loop (seq 0 n) base area r_lims dl.

(** The radius and the position that [gen_discs] computes from the three
    draws starting at position [j] of the random stream. *)
Definition gen_r (r_lims : R * R) (j : nat) : R :=
  uniform_of (fst r_lims) (snd r_lims) (random_src j).
Definition gen_x (area : area_t) (r_lims : R * R) (j : nat) : R :=
  uniform_of (fst (fst area) + gen_r r_lims j)
             (snd (fst area) - gen_r r_lims j) (random_src (S j)).
Definition gen_y (area : area_t) (r_lims : R * R) (j : nat) : R :=
  uniform_of (fst (snd area) + gen_r r_lims j)
             (snd (snd area) - gen_r r_lims j) (random_src (S (S j))).

(** The discs of slots [s], ..., [s + k - 1], with draws taken from
    position [j] on, and the store after their centres are written. *)
Fixpoint gen_list (base : loc) (r_lims : R * R) (j s k : nat) : list disc :=
  match k with
  | O => []
  | S k' => ((base + s)%nat, gen_r r_lims j)
            :: gen_list base r_lims (3 + j)%nat (S s) k'
  end.
Fixpoint gen_store (f : loc -> vec) (base : loc) (area : area_t)
    (r_lims : R * R) (j s k : nat) : loc -> vec :=
  match k with
  | O => f
  | S k' => gen_store (upd f (base + s)%nat
                         (gen_x area r_lims j, gen_y area r_lims j))
              base area r_lims (3 + j)%nat (S s) k'
  end.

(** The world in which the list [ds] is the one passed as [dlist]. *)
Definition install (ds : list disc) (w : world) : world :=
  World ds (vecs w) (draws w) (ticks w) (out w).

(** ** The plotting driver *)

Definition plot_uncolliding (fuel : nat) (env : environ) (area : area_t)
    (palette : option (list string))
  : M (environ * axes * axes * list gui_event) :=
  let env := suppress_qt_debug env in
  let log := [CloseAll; Subplots 1 2] in
  ax0 <- dlist2plot [] palette ;;
  let ax0 := area2plot area ax0 "#600201" in
  process_list fuel area ;;;
  ax1 <- dlist2plot [] palette ;;
  let ax1 := area2plot area ax1 "#600201" in
  let log := log ++ [AutoscaleView 0; SetAspect 0 "equal";
                     AutoscaleView 1; SetAspect 1 "equal";
                     SetTitle 0 "Before shift"; SetTitle 1 "After shift";
                     Show] in
  ret (env, ax0, ax1, log).

(** The colour [dlist2plot] gives to the disc in slot [i], if any. *)
Definition palette_color (palette : option (list string)) (i : nat)
  : option string :=
  match palette with
  | None => Some "#5B9279"%string
  | Some pal => nth_error pal (i mod length pal)
  end.

(** The circle drawn for disc [d] in world [w] with colour [c]. *)
Definition circle_of (w : world) (d : disc) (c : string) : patch :=
  Circle (fst (vecs w (fst d))) (snd (vecs w (fst d))) (snd d) 0.4 c.

(** * Properties *)

(** ** Equations for the operations *)

Lemma upd_same f l v : upd f l v l = v.
Proof. unfold upd. now rewrite Nat.eqb_refl. Qed.

Lemma upd_other f l v l' : l' <> l -> upd f l v l' = f l'.
Proof. unfold upd. intros H. apply Nat.eqb_neq in H. now rewrite H. Qed.

Lemma moved_same f l v c : moved f l v c l = add_vec (f l) v c.
Proof. unfold moved, set0, set1. cbn. now rewrite !upd_same. Qed.

Lemma moved_other f l v c l' : l' <> l -> moved f l v c l' = f l'.
Proof. intros H. unfold moved, set0, set1. cbn. now rewrite !upd_other. Qed.

Lemma move_disc_eq d v c w :
  move_disc d v c w = Ok tt (set_vecs w (moved (vecs w) (fst d) v c)).
Proof. reflexivity. Qed.

Lemma uncollide_eq n1 n2 d1 d2 w :
  nth_error (dlist w) n1 = Some d1 ->
  nth_error (dlist w) n2 = Some d2 ->
  uncollide n1 n2 w = uncollide_closed d1 d2 w.
Proof.
  intros H1 H2.
  unfold uncollide, uncollide_closed, center, radius, bind, getitem, load, ret.
  repeat (progress (cbn; rewrite ?H1, ?H2)).
  destruct (Rlt_dec _ _) as [Hlt|Hge]; [|reflexivity].
  unfold uniform, random, bind, ret, pydiv.
  repeat (progress (cbn; rewrite ?H1, ?H2)).
  destruct (Req_dec_T _ _) as [Hz|Hnz]; [reflexivity|].
  unfold ret. repeat (progress (cbn; rewrite ?H1, ?H2)). reflexivity.
Qed.

Lemma uncollide_oob n1 n2 w :
  nth_error (dlist w) n1 = None \/ nth_error (dlist w) n2 = None ->
  uncollide n1 n2 w = Raise IndexError w.
Proof.
  intros H.
  unfold uncollide, center, radius, bind, getitem, load, ret.
  destruct (nth_error (dlist w) n2) as [d2|] eqn:H2; [|reflexivity].
  destruct H as [H|H]; [|discriminate]. now rewrite H.
Qed.

Lemma push2area_eq n d area w :
  nth_error (dlist w) n = Some d ->
  push2area n area w = push2area_closed d area w.
Proof.
  intros H.
  unfold push2area, push2area_closed, push_axis0, push_axis1.
  unfold coord0, coord1, set_coord0, set_coord1, center, radius, uniform,
    random, setitem0, setitem1, bind, getitem, load, ret.
  repeat (progress (cbn; rewrite ?H)).
  destruct (Rlt_dec (fst (vecs w (fst d)) - snd d) _);
    [|repeat (progress (cbn; rewrite ?H));
      destruct (Rgt_dec (fst (vecs w (fst d)) + snd d) _)];
    repeat (progress (cbn; rewrite ?H));
    (destruct (Rlt_dec _ _);
     [|repeat (progress (cbn; rewrite ?H)); destruct (Rgt_dec _ _)]);
    repeat (progress (cbn; rewrite ?H)); reflexivity.
Qed.

Lemma push2area_oob n area w :
  nth_error (dlist w) n = None ->
  push2area n area w = Raise IndexError w.
Proof.
  intros H.
  unfold push2area, coord0, center, bind, getitem. now rewrite H.
Qed.

(** ** Geometry *)

Lemma vec_len_nonneg v : 0 <= vec_len v.
Proof. apply sqrt_pos. Qed.

Lemma vec_len_zero v : vec_len v = 0 -> v = (0, 0).
Proof.
  destruct v as [a b]. unfold vec_len. cbn [fst snd]. intros H.
  apply sqrt_eq_0 in H; [|nra].
  assert (a = 0) by nra. assert (b = 0) by nra. now subst.
Qed.

Lemma vec_len_scale v s :
  vec_len (s * fst v, s * snd v) = Rabs s * vec_len v.
Proof.
  destruct v as [a b]. unfold vec_len. cbn [fst snd].
  replace ((s * a) ^ 2 + (s * b) ^ 2) with (s ^ 2 * (a ^ 2 + b ^ 2)) by ring.
  rewrite sqrt_mult; [|nra|nra].
  f_equal. replace (s ^ 2) with (Rsqr s) by (unfold Rsqr; ring).
  apply sqrt_Rsqr_abs.
Qed.

Lemma vec_len_opp a b : vec_len (- a, - b) = vec_len (a, b).
Proof.
  unfold vec_len. cbn [fst snd]. f_equal. ring.
Qed.

Lemma between_zero (c1 c2 : vec) :
  vec_len (add_vec c2 c1 (-1)) = 0 -> c1 = c2.
Proof.
  intros H. apply vec_len_zero in H.
  destruct c1 as [x1 y1], c2 as [x2 y2]. unfold add_vec in H. cbn in H.
  injection H as Hx Hy. f_equal; lra.
Qed.

Lemma distance_sym w d1 d2 : distance w d1 d2 = distance w d2 d1.
Proof.
  unfold distance, add_vec.
  destruct (center_of w d1) as [x1 y1], (center_of w d2) as [x2 y2].
  cbn [fst snd]. rewrite <- vec_len_opp. f_equal. f_equal; ring.
Qed.

(** ** The pairwise separator *)

(** What one call does to an overlapping pair with distinct centres: both
    centres slide along [between], by the same amount in opposite
    directions, and nothing else in the store changes. *)
Lemma uncollide_overlap n1 n2 d1 d2 w :
  nth_error (dlist w) n1 = Some d1 ->
  nth_error (dlist w) n2 = Some d2 ->
  center_of w d1 <> center_of w d2 ->
  distance w d1 d2 < snd d1 + snd d2 ->
  let l := distance w d1 d2 in
  let e := (snd d1 + snd d2 - l) * next_k w in
  let between := add_vec (center_of w d2) (center_of w d1) (-1) in
  exists w',
    uncollide n1 n2 w = Ok true w' /\
    dlist w' = dlist w /\
    center_of w' d1 = add_vec (center_of w d1) between (- (e / (2 * l))) /\
    center_of w' d2 = add_vec (center_of w d2) between (e / (2 * l)) /\
    (forall a, a <> fst d1 -> a <> fst d2 -> vecs w' a = vecs w a).
Proof.
  intros H1 H2 Hne Hlt l e between.
  assert (Hl : l <> 0).
  { intros Hz. apply Hne. now apply between_zero. }
  assert (Hloc : fst d1 <> fst d2).
  { intros Heq. apply Hne. unfold center_of. now rewrite Heq. }
  rewrite (uncollide_eq _ _ _ _ _ H1 H2). unfold uncollide_closed.
  fold (center_of w d1) (center_of w d2). fold between.
  change (vec_len between) with l.
  destruct (Rlt_dec l (snd d1 + snd d2)) as [_|Hn]; [|contradiction].
  destruct (Req_dec_T (2 * (l / 2)) 0) as [Hz|_]; [exfalso; lra|].
  eexists. split; [reflexivity|]. split; [reflexivity|].
  unfold center_of at 1 3. cbn [vecs set_vecs set_draws].
  fold (next_k w). fold e.
  split; [|split].
  - rewrite moved_other by exact Hloc. rewrite moved_same.
    fold (center_of w d1). unfold add_vec. cbn [fst snd].
    f_equal; field; exact Hl.
  - rewrite moved_same. rewrite moved_other by (intro; now apply Hloc).
    fold (center_of w d2). unfold add_vec. cbn [fst snd].
    f_equal; field; exact Hl.
  - intros a Ha1 Ha2. now rewrite !moved_other.
Qed.

(** C2.  An overlapping pair with distinct centres, a draw [k] in
    (1.001, 2): one call of [uncollide] returns [True], the new distance
    of the centres is [dist + (r_sum - dist) * k], which is at least
    [r_sum], and each disc has moved by half of the excess
    [(r_sum - dist) * k], in opposite directions along the unit vector of
    the line joining the centres. *)
Theorem uncollide_separates n1 n2 d1 d2 w :
  nth_error (dlist w) n1 = Some d1 ->
  nth_error (dlist w) n2 = Some d2 ->
  center_of w d1 <> center_of w d2 ->
  distance w d1 d2 < snd d1 + snd d2 ->
  1.001 < next_k w < 2 ->
  let dist := distance w d1 d2 in
  let r_sum := snd d1 + snd d2 in
  let excess := (r_sum - dist) * next_k w in
  let between := add_vec (center_of w d2) (center_of w d1) (-1) in
  let unit_dir := (fst between / dist, snd between / dist) in
  exists w',
    uncollide n1 n2 w = Ok true w' /\
    distance w' d1 d2 = dist + (r_sum - dist) * next_k w /\
    r_sum <= distance w' d1 d2 /\
    center_of w' d1 = add_vec (center_of w d1) unit_dir (- (excess / 2)) /\
    center_of w' d2 = add_vec (center_of w d2) unit_dir (excess / 2).
Proof.
  intros H1 H2 Hne Hlt Hk dist r_sum excess between unit_dir.
  destruct (uncollide_overlap _ _ _ _ _ H1 H2 Hne Hlt)
    as (w' & Hrun & _ & Hc1 & Hc2 & _).
  fold dist r_sum in Hc1, Hc2. fold excess in Hc1, Hc2. fold between in Hc1, Hc2.
  assert (Hpos : 0 < dist).
  { destruct (vec_len_nonneg between) as [Hp|Hz]; [exact Hp|].
    exfalso. apply Hne. apply between_zero. symmetry. exact Hz. }
  assert (Hex : 0 <= excess).
  { unfold excess, r_sum, dist. apply Rmult_le_pos; lra. }
  assert (Hdist : distance w' d1 d2 = dist + excess).
  { unfold distance. rewrite Hc1, Hc2.
    replace (add_vec (add_vec (center_of w d2) between (excess / (2 * dist)))
               (add_vec (center_of w d1) between (- (excess / (2 * dist))))
               (-1))
      with ((1 + excess / dist) * fst between, (1 + excess / dist) * snd between).
    2:{ unfold between, add_vec. cbn [fst snd]. f_equal; field; lra. }
    rewrite vec_len_scale. change (vec_len between) with dist.
    assert (0 <= excess / dist).
    { apply Rmult_le_pos; [exact Hex|]. left. now apply Rinv_0_lt_compat. }
    rewrite Rabs_pos_eq by lra. field. lra. }
  exists w'. split; [exact Hrun|]. split; [exact Hdist|]. split; [|split].
  - rewrite Hdist. unfold excess. fold dist r_sum in Hlt. nra.
  - rewrite Hc1. unfold add_vec, unit_dir. cbn [fst snd]. f_equal; field; lra.
  - rewrite Hc2. unfold add_vec, unit_dir. cbn [fst snd]. f_equal; field; lra.
Qed.

(** C8.  An overlapping pair with distinct centres, any draw: the sum of
    the two centres (twice their midpoint) is the same before and after
    the call. *)
Theorem uncollide_keeps_midpoint n1 n2 d1 d2 w :
  nth_error (dlist w) n1 = Some d1 ->
  nth_error (dlist w) n2 = Some d2 ->
  center_of w d1 <> center_of w d2 ->
  distance w d1 d2 < snd d1 + snd d2 ->
  exists w',
    uncollide n1 n2 w = Ok true w' /\
    add_vec (center_of w' d1) (center_of w' d2) 1 =
    add_vec (center_of w d1) (center_of w d2) 1.
Proof.
  intros H1 H2 Hne Hlt.
  destruct (uncollide_overlap _ _ _ _ _ H1 H2 Hne Hlt)
    as (w' & Hrun & _ & Hc1 & Hc2 & _).
  exists w'. split; [exact Hrun|].
  rewrite Hc1, Hc2. unfold add_vec. cbn [fst snd]. f_equal; ring.
Qed.

Lemma uncollide_quiet n1 n2 d1 d2 w :
  nth_error (dlist w) n1 = Some d1 ->
  nth_error (dlist w) n2 = Some d2 ->
  snd d1 + snd d2 <= distance w d1 d2 ->
  uncollide n1 n2 w = Ok false w.
Proof.
  intros H1 H2 Hge.
  rewrite (uncollide_eq _ _ _ _ _ H1 H2). unfold uncollide_closed.
  fold (center_of w d1) (center_of w d2).
  change (vec_len (add_vec (center_of w d2) (center_of w d1) (-1)))
    with (distance w d1 d2).
  destruct (Rlt_dec _ _) as [Hlt|_]; [lra|reflexivity].
Qed.

(** C6.  Centres at distance at least the sum of the radii (tangency
    included): [uncollide] returns [False] and the world is the one it
    was called in. *)
Theorem uncollide_apart n1 n2 d1 d2 w :
  nth_error (dlist w) n1 = Some d1 ->
  nth_error (dlist w) n2 = Some d2 ->
  snd d1 + snd d2 <= distance w d1 d2 ->
  uncollide n1 n2 w = Ok false w.
Proof. apply uncollide_quiet. Qed.

(** C4.  Coinciding centres and a positive sum of radii: the call ends
    with the exception raised by the division by [2*l_mid = 0]; the draw
    has been taken, no centre and no list slot has been written. *)
Theorem uncollide_coincident n1 n2 d1 d2 w :
  nth_error (dlist w) n1 = Some d1 ->
  nth_error (dlist w) n2 = Some d2 ->
  center_of w d1 = center_of w d2 ->
  0 < snd d1 + snd d2 ->
  exists w',
    uncollide n1 n2 w = Raise ZeroDivisionError w' /\
    vecs w' = vecs w /\ dlist w' = dlist w.
Proof.
  intros H1 H2 Heq Hr.
  rewrite (uncollide_eq _ _ _ _ _ H1 H2). unfold uncollide_closed.
  fold (center_of w d1) (center_of w d2). rewrite Heq.
  assert (Hz : vec_len (add_vec (center_of w d2) (center_of w d2) (-1)) = 0).
  { unfold vec_len, add_vec. cbn [fst snd].
    replace (_ + _) with 0 by ring. apply sqrt_0. }
  rewrite Hz.
  destruct (Rlt_dec 0 _) as [_|Hn]; [|contradiction].
  destruct (Req_dec_T _ _) as [_|Hn]; [|exfalso; apply Hn; lra].
  eexists. split; [reflexivity|]. split; reflexivity.
Qed.

(** ** Boundary containment *)

Lemma set0_same f l a : set0 f l a l = (a, snd (f l)).
Proof. unfold set0. apply upd_same. Qed.

Lemma set1_same f l a : set1 f l a l = (fst (f l), a).
Proof. unfold set1. apply upd_same. Qed.

Lemma set0_other f l a l' : l' <> l -> set0 f l a l' = f l'.
Proof. unfold set0. apply upd_other. Qed.

Lemma set1_other f l a l' : l' <> l -> set1 f l a l' = f l'.
Proof. unfold set1. apply upd_other. Qed.

(** C3, with the area at least three radii long on each axis.  A disc of
    non-negative radius that crosses a bound, draws in (1, 2):
    [push2area] returns [True] and leaves the disc within the area on
    both axes. *)
Theorem push2area_contains n d area w :
  nth_error (dlist w) n = Some d ->
  0 <= snd d ->
  3 * snd d <= snd (fst area) - fst (fst area) ->
  3 * snd d <= snd (snd area) - fst (snd area) ->
  1 < margin (draws w) < 2 ->
  1 < margin (S (draws w)) < 2 ->
  ~ (inside0 w d area /\ inside1 w d area) ->
  exists w',
    push2area n area w = Ok true w' /\
    inside0 w' d area /\ inside1 w' d area.
Proof.
  intros H Hr Hw Hh Hk0 Hk1 Hout.
  rewrite (push2area_eq _ _ _ _ H).
  unfold push2area_closed, push_axis0, push_axis1.
  unfold inside0, inside1, center_of in *. unfold margin in *.
  destruct area as [[x0 xm] [y0 ym]]. cbn [fst snd] in *.
  destruct (Rlt_dec (fst (vecs w (fst d)) - snd d) x0) as [Hx|Hx];
    [|destruct (Rgt_dec (fst (vecs w (fst d)) + snd d) xm) as [Hx'|Hx']];
    cbn [fst snd vecs draws set_vecs set_draws];
    rewrite ?set0_same; cbn [fst snd];
    (destruct (Rlt_dec _ y0) as [Hy|Hy];
     [|destruct (Rgt_dec _ ym) as [Hy'|Hy']]);
    cbn [fst snd vecs draws set_vecs set_draws];
    rewrite ?set1_same, ?set0_same; cbn [fst snd];
    try (eexists; split; [reflexivity|];
         cbn [fst snd vecs draws set_vecs set_draws];
         rewrite ?set1_same, ?set0_same; cbn [fst snd];
         split; split; nra).
  exfalso. apply Hout. unfold Rgt in *. lra.
Qed.

(** ** Frame properties *)

#[local] Instance dlist_untouched : Untouched dlist.
Proof. split; reflexivity. Qed.

#[local] Instance ticks_untouched : Untouched ticks.
Proof. split; reflexivity. Qed.

Section Preserved.

Context {B : Type} (proj : world -> B) `{!Untouched proj}.

Lemma preserves_ret {A} (a : A) : preserves proj (ret a).
Proof. intros w. reflexivity. Qed.

Lemma preserves_raise {A} e : preserves proj (@raise A e).
Proof. intros w. reflexivity. Qed.

Lemma preserves_bind {A C} (c : M A) (k : A -> M C) :
  preserves proj c -> (forall a, preserves proj (k a)) ->
  preserves proj (bind c k).
Proof.
  intros Hc Hk w. unfold bind. specialize (Hc w).
  destruct (c w) as [a w1|e w1|w1]; cbn in *; [|exact Hc|exact Hc].
  rewrite Hk. exact Hc.
Qed.

Lemma preserves_getitem n : preserves proj (getitem n).
Proof. intros w. unfold getitem. now destruct (nth_error _ _). Qed.

Lemma preserves_load l : preserves proj (load l).
Proof. intros w. reflexivity. Qed.

Lemma preserves_len : preserves proj len.
Proof. intros w. reflexivity. Qed.

Lemma preserves_setitem0 l a : preserves proj (setitem0 l a).
Proof. intros w. apply untouched_vecs. Qed.

Lemma preserves_setitem1 l a : preserves proj (setitem1 l a).
Proof. intros w. apply untouched_vecs. Qed.

Lemma preserves_print e : preserves proj (print e).
Proof. intros w. apply untouched_out. Qed.

Lemma preserves_random : preserves proj random.
Proof. intros w. apply untouched_draws. Qed.

Lemma preserves_pydiv x y : preserves proj (pydiv x y).
Proof.
  unfold pydiv.
  destruct (Req_dec_T y 0); [apply preserves_raise|apply preserves_ret].
Qed.

Ltac preserves_step :=
  first
    [ apply preserves_ret | apply preserves_raise | apply preserves_getitem
    | apply preserves_load | apply preserves_setitem0
    | apply preserves_setitem1 | apply preserves_print
    | apply preserves_random | apply preserves_len | apply preserves_pydiv
    | apply preserves_bind; [|intros ?]
    | match goal with
      | |- preserves _ (if ?c then _ else _) => destruct c
      end ].

Lemma preserves_uncollide n1 n2 : preserves proj (uncollide n1 n2).
Proof.
  unfold uncollide, center, radius, uniform, move_disc. cbv zeta.
  repeat preserves_step.
Qed.

Lemma preserves_push2area n area : preserves proj (push2area n area).
Proof.
  unfold push2area, coord0, coord1, set_coord0, set_coord1, center, radius,
    uniform. cbv zeta.
  repeat preserves_step.
Qed.

Lemma preserves_for_combs combs flag : preserves proj (for_combs combs flag).
Proof.
  revert flag. induction combs as [|i rest IH]; intros flag; cbn.
  - apply preserves_ret.
  - apply preserves_bind; [apply preserves_uncollide|]. intros b. apply IH.
Qed.

Lemma preserves_for_rng rng area flag :
  preserves proj (for_rng rng area flag).
Proof.
  revert flag. induction rng as [|i rest IH]; intros flag; cbn.
  - apply preserves_ret.
  - apply preserves_bind; [apply preserves_push2area|]. intros b. apply IH.
Qed.

Lemma preserves_while_flag fuel combs rng area m :
  preserves proj (while_flag fuel combs rng area m).
Proof.
  revert m. induction fuel as [|fuel IH]; intros m; cbn.
  - intros w. reflexivity.
  - apply preserves_bind; [apply preserves_for_combs|]. intros f1.
    apply preserves_bind; [apply preserves_for_rng|]. intros f2.
    apply preserves_bind.
    + unfold advisory, warn. destruct (Nat.ltb 120 (S m)); repeat preserves_step.
    + intros _. destruct f2; [apply IH|apply preserves_ret].
Qed.

End Preserved.

Lemma keeps_time : preserves dlist time.
Proof. intros w. reflexivity. Qed.

Lemma keeps_process_list fuel area : preserves dlist (process_list fuel area).
Proof.
  unfold process_list.
  apply preserves_bind; [apply preserves_len; exact _|]. intros n. cbv zeta.
  repeat (apply preserves_bind;
          [first [apply preserves_print; exact _ | apply keeps_time
                 | apply preserves_while_flag; exact _]|intros ?]).
  apply preserves_ret.
Qed.

(** C9.  Whatever the input and however the call ends (return,
    exception, or loop still running), [uncollide], [push2area] and
    [process_list] leave the list with the same length and every disc
    with the same radius. *)
Theorem radii_and_length_unchanged :
  (forall n1 n2 w,
      let w' := final (uncollide n1 n2 w) in
      length (dlist w') = length (dlist w) /\ radii w' = radii w) /\
  (forall n area w,
      let w' := final (push2area n area w) in
      length (dlist w') = length (dlist w) /\ radii w' = radii w) /\
  (forall fuel area w,
      let w' := final (process_list fuel area w) in
      length (dlist w') = length (dlist w) /\ radii w' = radii w).
Proof.
  unfold radii.
  cbv zeta. split; [|split]; intros.
  - now rewrite (preserves_uncollide dlist).
  - now rewrite (preserves_push2area dlist).
  - now rewrite keeps_process_list.
Qed.

Lemma uncollide_frame n1 n2 w a :
  (forall d, nth_error (dlist w) n1 = Some d -> a <> fst d) ->
  (forall d, nth_error (dlist w) n2 = Some d -> a <> fst d) ->
  vecs (final (uncollide n1 n2 w)) a = vecs w a.
Proof.
  intros Ha1 Ha2.
  destruct (nth_error (dlist w) n1) as [d1|] eqn:H1;
    [|rewrite uncollide_oob by (now left); reflexivity].
  destruct (nth_error (dlist w) n2) as [d2|] eqn:H2;
    [|rewrite uncollide_oob by (now right); reflexivity].
  rewrite (uncollide_eq _ _ _ _ _ H1 H2). unfold uncollide_closed.
  destruct (Rlt_dec _ _); [|reflexivity].
  destruct (Req_dec_T _ _); [reflexivity|].
  cbn. rewrite !moved_other; auto.
Qed.

Lemma push2area_frame n area w a :
  (forall d, nth_error (dlist w) n = Some d -> a <> fst d) ->
  vecs (final (push2area n area w)) a = vecs w a.
Proof.
  intros Ha.
  destruct (nth_error (dlist w) n) as [d|] eqn:H;
    [|rewrite push2area_oob by assumption; reflexivity].
  specialize (Ha d eq_refl).
  rewrite (push2area_eq _ _ _ _ H).
  unfold push2area_closed, push_axis0, push_axis1.
  destruct (Rlt_dec (fst (vecs w (fst d)) - snd d) _);
    [|destruct (Rgt_dec (fst (vecs w (fst d)) + snd d) _)];
    cbn [fst snd vecs draws set_vecs set_draws];
    (destruct (Rlt_dec _ _); [|destruct (Rgt_dec _ _)]);
    cbn; rewrite ?set1_other, ?set0_other by assumption; reflexivity.
Qed.

Lemma disc_at_frame w w' i :
  dlist w' = dlist w ->
  (forall d, nth_error (dlist w) i = Some d -> vecs w' (fst d) = vecs w (fst d)) ->
  disc_at w' i = disc_at w i.
Proof.
  intros Hl Hv. unfold disc_at. rewrite Hl.
  destruct (nth_error (dlist w) i) as [d|]; [|reflexivity].
  now rewrite Hv.
Qed.

Lemma uncollide_unshared n1 n2 w i :
  ~ shares_center w i n1 -> ~ shares_center w i n2 ->
  disc_at (final (uncollide n1 n2 w)) i = disc_at w i.
Proof.
  intros Hs1 Hs2. apply disc_at_frame.
  - apply (preserves_uncollide dlist).
  - intros di Hi. apply uncollide_frame.
    + intros d Hd Heq. apply Hs1. now exists di, d.
    + intros d Hd Heq. apply Hs2. now exists di, d.
Qed.

Lemma push2area_unshared n area w i :
  ~ shares_center w i n ->
  disc_at (final (push2area n area w)) i = disc_at w i.
Proof.
  intros Hs. apply disc_at_frame.
  - apply (preserves_push2area dlist).
  - intros di Hi. apply push2area_frame.
    intros d Hd Heq. apply Hs. now exists di, d.
Qed.

(** C10, for discs that do not share their centre vector with a disc the
    call works on.  However the call ends, [uncollide(dlist, n1, n2)]
    leaves the disc in every slot whose centre is not the centre object
    of slot [n1] or [n2] as it was, and [push2area(dlist, n, area)] does
    so for every slot whose centre is not the centre object of slot
    [n]. *)
Theorem unshared_discs_unchanged :
  (forall n1 n2 w i,
      ~ shares_center w i n1 -> ~ shares_center w i n2 ->
      disc_at (final (uncollide n1 n2 w)) i = disc_at w i) /\
  (forall n area w i,
      ~ shares_center w i n ->
      disc_at (final (push2area n area w)) i = disc_at w i).
Proof.
  split.
  - intros n1 n2 w i. apply uncollide_unshared.
  - intros n area w i. apply push2area_unshared.
Qed.

(** When no two slots share a centre object (every disc coming from its
    own [make_disc] call, which builds a new [[x, y]]), every slot other
    than the ones named in the call is left as it was. *)
Lemma nodup_not_shared w i j :
  NoDup (map fst (dlist w)) -> i <> j -> ~ shares_center w i j.
Proof.
  intros Hnd Hij (di & dj & Hi & Hj & Heq). apply Hij.
  rewrite NoDup_nth_error in Hnd. apply Hnd.
  - apply nth_error_Some. rewrite (map_nth_error fst _ _ Hi). discriminate.
  - rewrite (map_nth_error fst _ _ Hi), (map_nth_error fst _ _ Hj).
    now rewrite Heq.
Qed.

Lemma uncollide_frame_nodup n1 n2 w i :
  NoDup (map fst (dlist w)) -> i <> n1 -> i <> n2 ->
  disc_at (final (uncollide n1 n2 w)) i = disc_at w i.
Proof.
  intros Hnd H1 H2. apply uncollide_unshared; now apply nodup_not_shared.
Qed.

Lemma push2area_frame_nodup n area w i :
  NoDup (map fst (dlist w)) -> i <> n ->
  disc_at (final (push2area n area w)) i = disc_at w i.
Proof.
  intros Hnd H. apply push2area_unshared. now apply nodup_not_shared.
Qed.

(** ** The relaxation driver *)

Lemma in_combinations2_seq s n i j :
  In (i, j) (combinations2 (seq s n)) <-> (s <= i < j /\ j < s + n)%nat.
Proof.
  revert s. induction n as [|n IH]; intros s; cbn.
  - lia.
  - rewrite in_app_iff, in_map_iff, IH. split.
    + intros [(y & Hy & Hin)|H].
      * injection Hy as <- <-. apply in_seq in Hin. lia.
      * lia.
    + intros H. destruct (Nat.eq_dec i s) as [->|Hne].
      * left. exists j. split; [reflexivity|]. apply in_seq. lia.
      * right. lia.
Qed.

Lemma uncollide_false_inv n1 n2 w w' :
  uncollide n1 n2 w = Ok false w' -> w' = w /\ apart w (n1, n2).
Proof.
  intros H.
  destruct (nth_error (dlist w) n1) as [d1|] eqn:H1;
    [|rewrite uncollide_oob in H by (now left); discriminate].
  destruct (nth_error (dlist w) n2) as [d2|] eqn:H2;
    [|rewrite uncollide_oob in H by (now right); discriminate].
  rewrite (uncollide_eq _ _ _ _ _ H1 H2) in H. unfold uncollide_closed in H.
  destruct (Rlt_dec _ _) as [Hlt|Hge].
  - destruct (Req_dec_T _ _); discriminate.
  - injection H as <-. split; [reflexivity|].
    exists d1, d2. cbn [fst snd]. repeat split; try assumption.
    unfold distance, center_of. lra.
Qed.

Lemma push2area_inside n d area w :
  nth_error (dlist w) n = Some d ->
  inside0 w d area -> inside1 w d area ->
  push2area n area w = Ok false w.
Proof.
  intros H [Hx0 Hx1] [Hy0 Hy1]. unfold center_of in *.
  rewrite (push2area_eq _ _ _ _ H).
  unfold push2area_closed, push_axis0, push_axis1.
  destruct (Rlt_dec (fst (vecs w (fst d)) - snd d) _); [lra|].
  destruct (Rgt_dec (fst (vecs w (fst d)) + snd d) _); [unfold Rgt in *; lra|].
  cbn [fst snd].
  destruct (Rlt_dec _ _); [lra|].
  destruct (Rgt_dec _ _); [unfold Rgt in *; lra|].
  reflexivity.
Qed.

Lemma push2area_false_inv n area w w' :
  push2area n area w = Ok false w' -> w' = w /\ within area w n.
Proof.
  intros H.
  destruct (nth_error (dlist w) n) as [d|] eqn:Hn;
    [|rewrite push2area_oob in H by assumption; discriminate].
  rewrite (push2area_eq _ _ _ _ Hn) in H.
  unfold push2area_closed, push_axis0, push_axis1 in H.
  destruct (Rlt_dec (fst (vecs w (fst d)) - snd d) _) as [|Hx0];
    [|destruct (Rgt_dec (fst (vecs w (fst d)) + snd d) _) as [|Hx1]];
    cbn [fst snd] in H;
    (destruct (Rlt_dec _ _) as [|Hy0];
     [|destruct (Rgt_dec _ _) as [|Hy1]]);
    cbn [fst snd] in H; try discriminate.
  injection H as <-. split; [reflexivity|].
  exists d. unfold inside0, inside1, center_of, Rgt in *.
  repeat split; try assumption; lra.
Qed.

Lemma for_combs_true combs w b w' :
  for_combs combs true w = Ok b w' -> b = true.
Proof.
  revert w. induction combs as [|i rest IH]; intros w; cbn.
  - unfold ret. now intros [= <- _].
  - unfold bind. destruct (uncollide _ _ w) as [c w1| |]; try discriminate.
    destruct c; apply IH.
Qed.

Lemma for_rng_true rng area w b w' :
  for_rng rng area true w = Ok b w' -> b = true.
Proof.
  revert w. induction rng as [|i rest IH]; intros w; cbn.
  - unfold ret. now intros [= <- _].
  - unfold bind. destruct (push2area _ _ w) as [c w1| |]; try discriminate.
    destruct c; apply IH.
Qed.

Lemma for_combs_false_inv combs w w' :
  for_combs combs false w = Ok false w' -> w' = w /\ Forall (apart w) combs.
Proof.
  induction combs as [|i rest IH]; cbn.
  - unfold ret. intros [= <-]. split; [reflexivity|constructor].
  - unfold bind. destruct (uncollide _ _ w) as [c w1| |] eqn:Hu;
      try discriminate.
    destruct c; intros H.
    + apply for_combs_true in H. discriminate.
    + apply uncollide_false_inv in Hu. destruct Hu as [-> Hap].
      destruct (IH H) as [-> Hall]. split; [reflexivity|].
      constructor; [|exact Hall]. now destruct i.
Qed.

Lemma for_rng_false_inv rng area w w' :
  for_rng rng area false w = Ok false w' ->
  w' = w /\ Forall (within area w) rng.
Proof.
  induction rng as [|i rest IH]; cbn.
  - unfold ret. intros [= <-]. split; [reflexivity|constructor].
  - unfold bind. destruct (push2area _ _ w) as [c w1| |] eqn:Hu;
      try discriminate.
    destruct c; intros H.
    + apply for_rng_true in H. discriminate.
    + apply push2area_false_inv in Hu. destruct Hu as [-> Hin].
      destruct (IH H) as [-> Hall]. split; [reflexivity|].
      constructor; assumption.
Qed.

Lemma for_combs_quiet combs flag w :
  Forall (apart w) combs -> for_combs combs flag w = Ok flag w.
Proof.
  induction 1 as [|i rest (di & dj & Hi & Hj & Hd) _ IH]; cbn.
  - reflexivity.
  - unfold bind. rewrite (uncollide_quiet _ _ _ _ _ Hi Hj Hd). exact IH.
Qed.

Lemma for_rng_quiet rng area flag w :
  Forall (within area w) rng -> for_rng rng area flag w = Ok flag w.
Proof.
  induction 1 as [|i rest (d & Hi & H0 & H1) _ IH]; cbn.
  - reflexivity.
  - unfold bind. rewrite (push2area_inside _ _ _ _ Hi H0 H1). exact IH.
Qed.

Lemma apart_ext w w' ij :
  dlist w' = dlist w -> vecs w' = vecs w -> apart w ij -> apart w' ij.
Proof.
  intros Hl Hv (di & dj & Hi & Hj & Hd). exists di, dj.
  rewrite Hl. repeat split; try assumption.
  unfold distance, center_of in *. now rewrite Hv.
Qed.

Lemma within_ext area w w' i :
  dlist w' = dlist w -> vecs w' = vecs w -> within area w i -> within area w' i.
Proof.
  intros Hl Hv (d & Hi & H0 & H1). exists d.
  rewrite Hl. unfold inside0, inside1, center_of in *. now rewrite Hv.
Qed.

(** A pass that finds every pair apart and every disc within the area
    amounts to the two invariants, and conversely. *)
Lemma apart_all_no_overlap w :
  Forall (apart w) (combinations2 (seq 0 (length (dlist w)))) <-> no_overlap w.
Proof.
  rewrite Forall_forall. split.
  - intros Hall i j di dj Hij Hi Hj.
    assert (Hli : (i < length (dlist w))%nat)
      by (apply nth_error_Some; rewrite Hi; discriminate).
    assert (Hlj : (j < length (dlist w))%nat)
      by (apply nth_error_Some; rewrite Hj; discriminate).
    destruct (Nat.lt_ge_cases i j) as [Hlt|Hge].
    + destruct (Hall (i, j)) as (di' & dj' & Hi' & Hj' & Hd).
      { apply in_combinations2_seq. lia. }
      cbn [fst snd] in *. congruence.
    + destruct (Hall (j, i)) as (dj' & di' & Hj' & Hi' & Hd).
      { apply in_combinations2_seq. lia. }
      cbn [fst snd] in *.
      assert (dj' = dj) by congruence. assert (di' = di) by congruence.
      subst. rewrite distance_sym. lra.
  - intros Hno [i j] Hin. apply in_combinations2_seq in Hin.
    destruct (nth_error (dlist w) i) as [di|] eqn:Hi;
      [|apply nth_error_None in Hi; lia].
    destruct (nth_error (dlist w) j) as [dj|] eqn:Hj;
      [|apply nth_error_None in Hj; lia].
    exists di, dj. cbn [fst snd]. repeat split; try assumption.
    apply (Hno i j); [lia|assumption|assumption].
Qed.

Lemma within_all_inside area w :
  Forall (within area w) (seq 0 (length (dlist w))) <-> all_inside w area.
Proof.
  rewrite Forall_forall. split.
  - intros Hall i d Hi.
    destruct (Hall i) as (d' & Hi' & H).
    { apply in_seq. assert (i < length (dlist w))%nat; [|lia].
      apply nth_error_Some. rewrite Hi. discriminate. }
    assert (d' = d) by congruence. now subst.
  - intros Hin i Hi. apply in_seq in Hi.
    destruct (nth_error (dlist w) i) as [d|] eqn:Hd;
      [|apply nth_error_None in Hd; lia].
    exists d. split; [exact Hd|]. exact (Hin i d Hd).
Qed.

Lemma advisory_eq m w :
  exists w', advisory m w = Ok tt w' /\
             dlist w' = dlist w /\ vecs w' = vecs w /\ draws w' = draws w /\
             ticks w' = ticks w /\ exists evs, out w' = out w ++ evs.
Proof.
  unfold advisory, warn, print, ret.
  destruct (Nat.ltb 120 m); eexists; (split; [reflexivity|]);
    repeat split; cbn; eexists; [reflexivity|].
  symmetry. apply app_nil_r.
Qed.

(** When the loop returns, its last pass ran in a world [w0] in which
    every pair was apart and every disc within the area, and nothing was
    written to the list or the centres afterwards. *)
Lemma while_flag_inv fuel combs rng area m w m' w' :
  while_flag fuel combs rng area m w = Ok m' w' ->
  exists w0,
    Forall (apart w0) combs /\ Forall (within area w0) rng /\
    dlist w' = dlist w0 /\ vecs w' = vecs w0 /\
    (m < m' <= m + fuel)%nat.
Proof.
  revert m w. induction fuel as [|fuel IH]; intros m w; cbn [while_flag].
  - discriminate.
  - unfold bind.
    destruct (for_combs combs false w) as [f1 w1| |] eqn:H1; try discriminate.
    destruct (for_rng rng area f1 w1) as [f2 w2| |] eqn:H2; try discriminate.
    destruct (advisory_eq (S m) w2) as (w3 & -> & Hl & Hv & _).
    destruct f2.
    + intros H. destruct (IH _ _ H) as (w0 & Ha & Hw & Hl0 & Hv0 & Hm).
      exists w0. repeat split; try assumption; lia.
    + unfold ret. intros [= <- <-].
      destruct f1; [apply for_rng_true in H2; discriminate|].
      apply for_combs_false_inv in H1. destruct H1 as [-> Ha].
      apply for_rng_false_inv in H2. destruct H2 as [-> Hw].
      exists w. repeat split; try assumption; lia.
Qed.

(** On a list in which every pair is apart and every disc within the
    area, the loop makes one pass and stops. *)
Lemma while_flag_quiet fuel combs rng area w :
  Forall (apart w) combs -> Forall (within area w) rng ->
  while_flag (S fuel) combs rng area 0 w = Ok 1%nat w.
Proof.
  intros Ha Hw. cbn [while_flag]. unfold bind.
  rewrite (for_combs_quiet _ _ _ Ha), (for_rng_quiet _ _ _ _ Hw).
  reflexivity.
Qed.

Lemma process_list_eq fuel area w :
  process_list fuel area w =
  let n := length (dlist w) in
  match while_flag fuel (combinations2 (seq 0 n)) (seq 0 n) area 0
          (loop_entry w) with
  | Ok m w4 => Ok PyNone (loop_exit (clock (ticks w)) m w4)
  | Raise e w4 => Raise e w4
  | Spin w4 => Spin w4
  end.
Proof.
  unfold process_list, bind, len, print, time, ret. cbn.
  fold (loop_entry w).
  now destruct (while_flag _ _ _ _ _ _).
Qed.

(** C1.  Whenever [process_list] returns, no two discs in different
    slots overlap and every disc lies within the area on both axes. *)
Theorem process_list_establishes fuel area w v w' :
  process_list fuel area w = Ok v w' ->
  no_overlap w' /\ all_inside w' area.
Proof.
  rewrite process_list_eq. cbv zeta.
  destruct (while_flag _ _ _ _ _ _) as [m w4| |] eqn:Hloop; try discriminate.
  intros [= _ <-].
  pose proof (preserves_while_flag dlist fuel
                (combinations2 (seq 0 (length (dlist w))))
                (seq 0 (length (dlist w))) area 0%nat (loop_entry w))
    as Hkeep.
  rewrite Hloop in Hkeep. cbn in Hkeep.
  apply while_flag_inv in Hloop.
  destruct Hloop as (w0 & Ha & Hw & Hl & Hv & _).
  assert (Hlen : length (dlist w) = length (dlist (loop_exit (clock (ticks w)) m w4)))
    by (cbn; now rewrite Hkeep).
  rewrite Hlen in Ha, Hw.
  split.
  - apply apart_all_no_overlap.
    eapply Forall_impl; [|exact Ha].
    intros ij. apply apart_ext; cbn; congruence.
  - apply within_all_inside.
    eapply Forall_impl; [|exact Hw].
    intros i. apply within_ext; cbn; congruence.
Qed.

Lemma process_list_quiet fuel area w :
  no_overlap w -> all_inside w area ->
  let n := length (dlist w) in
  exists w',
    process_list (S fuel) area w = Ok PyNone w' /\
    dlist w' = dlist w /\ vecs w' = vecs w /\ draws w' = draws w /\
    out w' = out w ++ [PrintRemoving n; PrintChecking ((n - 1) * n / 2)%nat;
                       PrintDone (clock (S (ticks w)) - clock (ticks w)) 1].
Proof.
  intros Hno Hin n.
  rewrite process_list_eq. cbv zeta.
  rewrite while_flag_quiet.
  - eexists. split; [reflexivity|]. cbn. repeat split.
    rewrite <- !app_assoc. reflexivity.
  - apply apart_all_no_overlap in Hno.
    eapply Forall_impl; [|exact Hno].
    intros ij. apply apart_ext; reflexivity.
  - apply within_all_inside in Hin.
    eapply Forall_impl; [|exact Hin].
    intros i. apply within_ext; reflexivity.
Qed.

(** C7.  On a list that satisfies both invariants the loop makes a
    single pass: [process_list] returns with every centre, the list and
    the random stream untouched, and reports one iteration. *)
Theorem process_list_idempotent fuel area w :
  no_overlap w -> all_inside w area ->
  let n := length (dlist w) in
  exists w',
    process_list (S fuel) area w = Ok PyNone w' /\
    dlist w' = dlist w /\ vecs w' = vecs w /\ draws w' = draws w /\
    out w' = out w ++ [PrintRemoving n; PrintChecking ((n - 1) * n / 2)%nat;
                       PrintDone (clock (S (ticks w)) - clock (ticks w)) 1].
Proof. apply process_list_quiet. Qed.

(** C5, as the code has it.  Whenever [process_list] returns, the value
    handed to the caller is [None]; the number of passes [m] and the
    time between the two clock readings appear in the last message
    printed, and the list object is the one passed in. *)
Theorem process_list_returns_none fuel area w v w' :
  process_list fuel area w = Ok v w' ->
  v = PyNone /\
  dlist w' = dlist w /\
  exists m earlier,
    (1 <= m <= fuel)%nat /\
    out w' =
    earlier ++ [PrintDone (clock (S (ticks w)) - clock (ticks w)) m].
Proof.
  intros H.
  pose proof (keeps_process_list fuel area w) as Hkeep.
  rewrite H in Hkeep. cbn in Hkeep.
  rewrite process_list_eq in H. cbv zeta in H.
  destruct (while_flag _ _ _ _ _ _) as [m w4| |] eqn:Hloop; try discriminate.
  injection H as <- <-.
  pose proof (preserves_while_flag ticks fuel
                (combinations2 (seq 0 (length (dlist w))))
                (seq 0 (length (dlist w))) area 0%nat (loop_entry w))
    as Hticks.
  rewrite Hloop in Hticks. cbn in Hticks.
  apply while_flag_inv in Hloop.
  destruct Hloop as (_ & _ & _ & _ & _ & Hm).
  split; [reflexivity|]. split; [exact Hkeep|].
  exists m, (out w4). split; [lia|].
  cbn. now rewrite Hticks.
Qed.

(** ** Further properties of the separator *)

(** The distance of the centres after a call on an overlapping pair. *)
Lemma uncollide_new_distance n1 n2 d1 d2 w :
  nth_error (dlist w) n1 = Some d1 ->
  nth_error (dlist w) n2 = Some d2 ->
  center_of w d1 <> center_of w d2 ->
  distance w d1 d2 < snd d1 + snd d2 ->
  0 <= next_k w ->
  exists w',
    uncollide n1 n2 w = Ok true w' /\
    dlist w' = dlist w /\
    distance w' d1 d2 =
    distance w d1 d2 + (snd d1 + snd d2 - distance w d1 d2) * next_k w.
Proof.
  intros H1 H2 Hne Hlt Hk.
  destruct (uncollide_overlap _ _ _ _ _ H1 H2 Hne Hlt)
    as (w' & Hrun & Hl & Hc1 & Hc2 & _).
  exists w'. split; [exact Hrun|]. split; [exact Hl|].
  set (dist := distance w d1 d2) in *.
  set (e := (snd d1 + snd d2 - dist) * next_k w) in *.
  set (between := add_vec (center_of w d2) (center_of w d1) (-1)) in *.
  assert (Hpos : 0 < dist).
  { destruct (vec_len_nonneg between) as [Hp|Hz]; [exact Hp|].
    exfalso. apply Hne. apply between_zero. symmetry. exact Hz. }
  assert (He : 0 <= e) by (unfold e; apply Rmult_le_pos; lra).
  unfold distance at 1. rewrite Hc1, Hc2.
  replace (add_vec (add_vec (center_of w d2) between (e / (2 * dist)))
             (add_vec (center_of w d1) between (- (e / (2 * dist)))) (-1))
    with ((1 + e / dist) * fst between, (1 + e / dist) * snd between).
  2:{ unfold between, add_vec. cbn [fst snd]. f_equal; field; lra. }
  rewrite vec_len_scale. change (vec_len between) with dist.
  assert (0 <= e / dist).
  { apply Rmult_le_pos; [exact He|]. left. now apply Rinv_0_lt_compat. }
  rewrite Rabs_pos_eq by lra. field. lra.
Qed.

(** X1.  On two slots in range a call of [uncollide] ends in exactly one
    of three ways, decided by the geometry alone: no overlap, [False] and
    nothing touched; overlap with coinciding centres, [ZeroDivisionError]
    after one draw; overlap with distinct centres, [True] after one
    draw. *)
Theorem uncollide_outcomes n1 n2 d1 d2 w :
  nth_error (dlist w) n1 = Some d1 ->
  nth_error (dlist w) n2 = Some d2 ->
  (snd d1 + snd d2 <= distance w d1 d2 /\
   uncollide n1 n2 w = Ok false w) \/
  (distance w d1 d2 < snd d1 + snd d2 /\
   center_of w d1 = center_of w d2 /\
   uncollide n1 n2 w = Raise ZeroDivisionError (set_draws w (S (draws w)))) \/
  (distance w d1 d2 < snd d1 + snd d2 /\
   center_of w d1 <> center_of w d2 /\
   exists w', uncollide n1 n2 w = Ok true w' /\ draws w' = S (draws w)).
Proof.
  intros H1 H2.
  rewrite (uncollide_eq _ _ _ _ _ H1 H2). unfold uncollide_closed.
  fold (center_of w d1) (center_of w d2).
  change (vec_len (add_vec (center_of w d2) (center_of w d1) (-1)))
    with (distance w d1 d2).
  destruct (Rlt_dec _ _) as [Hlt|Hge]; [|left; split; [lra|reflexivity]].
  right. destruct (Req_dec_T _ _) as [Hz|Hnz].
  - left. split; [exact Hlt|]. split; [|reflexivity].
    apply between_zero. fold (distance w d1 d2). lra.
  - right. split; [exact Hlt|]. split.
    + intros Heq. apply Hnz. unfold distance. rewrite Heq.
      replace (vec_len _) with 0; [lra|].
      unfold vec_len, add_vec. cbn [fst snd].
      replace (_ + _) with 0 by ring. symmetry. apply sqrt_0.
    + eexists. split; reflexivity.
Qed.

(** X2.  [uncollide] raises [IndexError] exactly when one of its indices
    is past the end of the list, and the world is then as it was. *)
Theorem uncollide_index_error n1 n2 w w' :
  uncollide n1 n2 w = Raise IndexError w' <->
  w' = w /\ (length (dlist w) <= n1 \/ length (dlist w) <= n2)%nat.
Proof.
  split.
  - intros H.
    destruct (nth_error (dlist w) n1) as [d1|] eqn:H1.
    + destruct (nth_error (dlist w) n2) as [d2|] eqn:H2.
      * rewrite (uncollide_eq _ _ _ _ _ H1 H2) in H.
        unfold uncollide_closed in H.
        destruct (Rlt_dec _ _); [|discriminate].
        destruct (Req_dec_T _ _); discriminate.
      * rewrite uncollide_oob in H by (now right). injection H as <-.
        split; [reflexivity|]. right. now apply nth_error_None.
    + rewrite uncollide_oob in H by (now left). injection H as <-.
      split; [reflexivity|]. left. now apply nth_error_None.
  - intros [-> H]. apply uncollide_oob.
    destruct H as [H|H]; [left|right]; now apply nth_error_None.
Qed.

Lemma same_world_refl w : same_world w w.
Proof. repeat split. Qed.

(** X3.  The order of the two indices does not matter: [uncollide] on
    [(n2, n1)] ends the way it does on [(n1, n2)], with the same value
    and every centre at the same place. *)
Theorem uncollide_symmetric n1 n2 d1 d2 w :
  nth_error (dlist w) n1 = Some d1 ->
  nth_error (dlist w) n2 = Some d2 ->
  same_outcome (uncollide n1 n2 w) (uncollide n2 n1 w).
Proof.
  intros H1 H2.
  rewrite (uncollide_eq _ _ _ _ _ H1 H2), (uncollide_eq _ _ _ _ _ H2 H1).
  unfold uncollide_closed.
  set (b := add_vec (vecs w (fst d2)) (vecs w (fst d1)) (-1)).
  set (b' := add_vec (vecs w (fst d1)) (vecs w (fst d2)) (-1)).
  assert (Hb : b' = (- fst b, - snd b)).
  { unfold b, b', add_vec. cbn [fst snd]. f_equal; ring. }
  assert (Hl : vec_len b' = vec_len b).
  { rewrite Hb, vec_len_opp. now destruct b. }
  rewrite Hl. rewrite (Rplus_comm (snd d2) (snd d1)).
  destruct (Rlt_dec _ _) as [Hlt|Hge]; [|split; [reflexivity|apply same_world_refl]].
  destruct (Req_dec_T _ _) as [Hz|Hnz]; [split; [reflexivity|apply same_world_refl]|].
  split; [reflexivity|]. repeat split. cbn [vecs set_vecs set_draws].
  assert (Hloc : fst d1 <> fst d2).
  { intros Heq. apply Hnz. unfold b. rewrite Heq.
    replace (vec_len _) with 0; [lra|].
    unfold vec_len, add_vec. cbn [fst snd].
    replace (_ + _) with 0 by ring. symmetry. apply sqrt_0. }
  assert (Hloc' : fst d2 <> fst d1) by (intro; now apply Hloc).
  assert (Hl0 : vec_len b <> 0) by lra.
  intros l.
  destruct (Nat.eq_dec l (fst d1)) as [->|Hn1];
    [|destruct (Nat.eq_dec l (fst d2)) as [->|Hn2]];
    repeat first [rewrite moved_same | rewrite moved_other by assumption];
    try reflexivity;
    rewrite Hb; unfold add_vec; cbn [fst snd]; f_equal; field; exact Hl0.
Qed.

(** X4.  With draws in [0, 1), a call that separates an overlapping pair
    leaves it apart: a second call on the same pair returns [False] and
    touches nothing. *)
Theorem uncollide_twice n1 n2 d1 d2 w :
  unit_draws ->
  nth_error (dlist w) n1 = Some d1 ->
  nth_error (dlist w) n2 = Some d2 ->
  center_of w d1 <> center_of w d2 ->
  distance w d1 d2 < snd d1 + snd d2 ->
  exists w',
    uncollide n1 n2 w = Ok true w' /\ uncollide n1 n2 w' = Ok false w'.
Proof.
  intros Hu H1 H2 Hne Hlt.
  assert (Hk : 1 <= next_k w).
  { unfold next_k, uniform_of. specialize (Hu (draws w)). nra. }
  destruct (uncollide_new_distance _ _ _ _ _ H1 H2 Hne Hlt)
    as (w' & Hrun & Hl & Hd); [lra|].
  exists w'. split; [exact Hrun|].
  apply (uncollide_quiet _ _ d1 d2); rewrite ?Hl; try assumption.
  rewrite Hd. nra.
Qed.

(** ** Further properties of the containment step *)

(** X5.  [push2area] either finds its index past the end of the list and
    raises [IndexError] with nothing touched, or returns; it returns
    [False] exactly when the disc lay within the area on both axes, and
    then nothing has been touched. *)
Theorem push2area_outcomes n area w :
  ((length (dlist w) <= n)%nat /\ push2area n area w = Raise IndexError w) \/
  (exists d b w',
      nth_error (dlist w) n = Some d /\
      push2area n area w = Ok b w' /\
      (b = false <-> inside0 w d area /\ inside1 w d area) /\
      (b = false -> w' = w)).
Proof.
  destruct (nth_error (dlist w) n) as [d|] eqn:Hn.
  - right. exists d.
    destruct (push2area n area w) as [b w'|e w'|w'] eqn:Hrun.
    + exists b, w'. split; [reflexivity|]. split; [reflexivity|].
      destruct b.
      * split; [split; [discriminate|]|discriminate].
        intros [H0 H1]. rewrite (push2area_inside _ _ _ _ Hn H0 H1) in Hrun.
        discriminate.
      * apply push2area_false_inv in Hrun.
        destruct Hrun as [-> (d' & Hd' & H0 & H1)].
        assert (d' = d) by congruence. subst d'.
        split; [split; [intros _; now split|reflexivity]|reflexivity].
    + rewrite (push2area_eq _ _ _ _ Hn) in Hrun. discriminate.
    + rewrite (push2area_eq _ _ _ _ Hn) in Hrun. discriminate.
  - left. split; [now apply nth_error_None|]. now apply push2area_oob.
Qed.

(** X6.  With draws in [0, 1) and a non-negative radius, the side that
    [push2area] finds crossed is repaired whatever the size of the area:
    a disc below the lower bound of an axis ends with its lower extent on
    or above that bound, a disc (not below the lower bound) above the
    upper bound ends with its upper extent on or below it, and a
    coordinate on an axis where the disc lay within the area is kept. *)
Theorem push2area_repairs n d area w :
  unit_draws ->
  nth_error (dlist w) n = Some d ->
  0 <= snd d ->
  exists b w',
    push2area n area w = Ok b w' /\
    (fst (center_of w d) - snd d < fst (fst area) ->
     fst (fst area) <= fst (center_of w' d) - snd d) /\
    (fst (fst area) <= fst (center_of w d) - snd d ->
     snd (fst area) < fst (center_of w d) + snd d ->
     fst (center_of w' d) + snd d <= snd (fst area)) /\
    (snd (center_of w d) - snd d < fst (snd area) ->
     fst (snd area) <= snd (center_of w' d) - snd d) /\
    (fst (snd area) <= snd (center_of w d) - snd d ->
     snd (snd area) < snd (center_of w d) + snd d ->
     snd (center_of w' d) + snd d <= snd (snd area)) /\
    (inside0 w d area -> fst (center_of w' d) = fst (center_of w d)) /\
    (inside1 w d area -> snd (center_of w' d) = snd (center_of w d)).
Proof.
  intros Hu H Hr.
  assert (Hk0 : 1 <= margin (draws w))
    by (unfold margin, uniform_of; specialize (Hu (draws w)); lra).
  assert (Hk1 : 1 <= margin (S (draws w)))
    by (unfold margin, uniform_of; specialize (Hu (S (draws w))); lra).
  rewrite (push2area_eq _ _ _ _ H).
  unfold push2area_closed, push_axis0, push_axis1.
  unfold inside0, inside1, center_of in *. unfold margin in *.
  destruct area as [[x0 xm] [y0 ym]]. cbn [fst snd] in *.
  destruct (Rlt_dec (fst (vecs w (fst d)) - snd d) x0) as [Hx|Hx];
    [|destruct (Rgt_dec (fst (vecs w (fst d)) + snd d) xm) as [Hx'|Hx']];
    cbn [fst snd vecs draws set_vecs set_draws];
    rewrite ?set0_same; cbn [fst snd];
    (destruct (Rlt_dec _ y0) as [Hy|Hy];
     [|destruct (Rgt_dec _ ym) as [Hy'|Hy']]);
    cbn [fst snd vecs draws set_vecs set_draws];
    rewrite ?set1_same, ?set0_same; cbn [fst snd];
    eexists; eexists; (split; [reflexivity|]);
    cbn [fst snd vecs draws set_vecs set_draws];
    rewrite ?set1_same, ?set0_same; cbn [fst snd];
    unfold Rgt in *; repeat split; intros; try lra; try nra.
Qed.

(** ** Further properties of the driver *)

(** What holds when [process_list] returns: the two invariants, on the
    list that was passed in. *)
Lemma process_list_ok_inv fuel area w v w' :
  process_list fuel area w = Ok v w' ->
  dlist w' = dlist w /\ no_overlap w' /\ all_inside w' area.
Proof.
  intros H.
  pose proof (keeps_process_list fuel area w) as Hkeep.
  rewrite H in Hkeep. cbn in Hkeep. split; [exact Hkeep|].
  rewrite process_list_eq in H. cbv zeta in H.
  destruct (while_flag _ _ _ _ _ _) as [m w4| |] eqn:Hloop; try discriminate.
  injection H as _ <-.
  apply while_flag_inv in Hloop.
  destruct Hloop as (w0 & Ha & Hw & Hl & Hv & _).
  rewrite <- Hkeep in Ha, Hw.
  split.
  - apply apart_all_no_overlap.
    eapply Forall_impl; [|exact Ha].
    intros ij. apply apart_ext; cbn; congruence.
  - apply within_all_inside.
    eapply Forall_impl; [|exact Hw].
    intros i. apply within_ext; cbn; congruence.
Qed.

(** X7.  A disc whose diameter exceeds the width or the height of the
    area can never be contained: [process_list] then never returns,
    whatever the random draws and however long it runs (it keeps looping
    or stops on an exception). *)
Theorem process_list_unsatisfiable fuel area w i d :
  nth_error (dlist w) i = Some d ->
  snd (fst area) - fst (fst area) < 2 * snd d \/
  snd (snd area) - fst (snd area) < 2 * snd d ->
  forall v w', process_list fuel area w <> Ok v w'.
Proof.
  intros Hi Hsmall v w' Hrun.
  apply process_list_ok_inv in Hrun. destruct Hrun as (Hl & _ & Hin).
  rewrite <- Hl in Hi. destruct (Hin i d Hi) as [[H0 H1] [H2 H3]].
  lra.
Qed.

(** X8.  When two different slots hold discs with one and the same
    centre object and their radii add up to more than zero,
    [process_list] never returns either: the two can never be apart. *)
Theorem process_list_shared_centre fuel area w i j di dj :
  i <> j ->
  nth_error (dlist w) i = Some di ->
  nth_error (dlist w) j = Some dj ->
  fst di = fst dj ->
  0 < snd di + snd dj ->
  forall v w', process_list fuel area w <> Ok v w'.
Proof.
  intros Hij Hi Hj Hloc Hr v w' Hrun.
  apply process_list_ok_inv in Hrun. destruct Hrun as (Hl & Hno & _).
  rewrite <- Hl in Hi, Hj. specialize (Hno i j di dj Hij Hi Hj).
  unfold distance, center_of in Hno. rewrite Hloc in Hno.
  replace (vec_len _) with 0 in Hno; [lra|].
  unfold vec_len, add_vec. cbn [fst snd].
  replace (_ + _) with 0 by ring. symmetry. apply sqrt_0.
Qed.

(** X9.  Coinciding centres in slots 0 and 1 (the first pair of the
    first pass) with radii adding up to more than zero: [process_list]
    ends with [ZeroDivisionError] before any centre is written; the two
    opening messages are all that was printed. *)
Theorem process_list_degenerate fuel area w d0 d1 :
  nth_error (dlist w) 0 = Some d0 ->
  nth_error (dlist w) 1 = Some d1 ->
  center_of w d0 = center_of w d1 ->
  0 < snd d0 + snd d1 ->
  let n := length (dlist w) in
  exists w',
    process_list (S fuel) area w = Raise ZeroDivisionError w' /\
    vecs w' = vecs w /\
    out w' = out w ++ [PrintRemoving n; PrintChecking ((n - 1) * n / 2)%nat].
Proof.
  intros H0 H1 Hc Hr n.
  rewrite process_list_eq. cbv zeta.
  assert (Hlen : exists k, length (dlist w) = S (S k)).
  { assert (1 < length (dlist w))%nat
      by (apply nth_error_Some; rewrite H1; discriminate).
    exists (length (dlist w) - 2)%nat. lia. }
  destruct Hlen as [k Hk]. rewrite Hk.
  assert (Hrun : uncollide 0 1 (loop_entry w) =
                 Raise ZeroDivisionError
                   (set_draws (loop_entry w) (S (draws (loop_entry w))))).
  { rewrite (uncollide_eq 0 1 d0 d1 (loop_entry w) H0 H1).
    unfold uncollide_closed.
    change (vecs (loop_entry w) (fst d0)) with (center_of w d0).
    change (vecs (loop_entry w) (fst d1)) with (center_of w d1).
    rewrite Hc.
    assert (Hz : vec_len (add_vec (center_of w d1) (center_of w d1) (-1)) = 0).
    { unfold vec_len, add_vec. cbn [fst snd].
      replace (_ + _) with 0 by ring. apply sqrt_0. }
    rewrite Hz.
    destruct (Rlt_dec 0 _) as [_|Hn]; [|contradiction].
    destruct (Req_dec_T _ _) as [_|Hn]; [|exfalso; apply Hn; lra].
    reflexivity. }
  cbn [seq combinations2 map app while_flag for_combs fst snd].
  unfold bind at 1. unfold bind at 1. rewrite Hrun.
  eexists. split; [reflexivity|]. split; [reflexivity|].
  unfold loop_entry. cbn [out set_draws]. fold n.
  rewrite <- app_assoc. reflexivity.
Qed.

Lemma uncollide_in_range n1 n2 w :
  (n1 < length (dlist w))%nat -> (n2 < length (dlist w))%nat ->
  no_index_error (uncollide n1 n2 w).
Proof.
  intros L1 L2.
  destruct (nth_error (dlist w) n1) as [d1|] eqn:H1;
    [|apply nth_error_None in H1; lia].
  destruct (nth_error (dlist w) n2) as [d2|] eqn:H2;
    [|apply nth_error_None in H2; lia].
  rewrite (uncollide_eq _ _ _ _ _ H1 H2). unfold uncollide_closed.
  destruct (Rlt_dec _ _); [|exact I]. now destruct (Req_dec_T _ _).
Qed.

Lemma push2area_in_range n area w :
  (n < length (dlist w))%nat -> no_index_error (push2area n area w).
Proof.
  intros L.
  destruct (nth_error (dlist w) n) as [d|] eqn:H;
    [|apply nth_error_None in H; lia].
  rewrite (push2area_eq _ _ _ _ H). exact I.
Qed.

Lemma for_combs_in_range combs flag w :
  Forall (fun ij => (fst ij < length (dlist w))%nat /\
                    (snd ij < length (dlist w))%nat) combs ->
  no_index_error (for_combs combs flag w).
Proof.
  revert flag w. induction combs as [|ij rest IH]; intros flag w Hall.
  - exact I.
  - inversion Hall as [|? ? [L1 L2] Hrest]; subst. cbn. unfold bind.
    pose proof (uncollide_in_range _ _ _ L1 L2) as Hu.
    pose proof (preserves_uncollide dlist (fst ij) (snd ij) w) as Hk.
    destruct (uncollide (fst ij) (snd ij) w) as [b w1|e w1|w1];
      [|exact Hu|exact I].
    apply IH. cbn in Hk. now rewrite Hk.
Qed.

Lemma for_rng_in_range rng area flag w :
  Forall (fun i => (i < length (dlist w))%nat) rng ->
  no_index_error (for_rng rng area flag w).
Proof.
  revert flag w. induction rng as [|i rest IH]; intros flag w Hall.
  - exact I.
  - inversion Hall as [|? ? L Hrest]; subst. cbn. unfold bind.
    pose proof (push2area_in_range _ area _ L) as Hu.
    pose proof (preserves_push2area dlist i area w) as Hk.
    destruct (push2area i area w) as [b w1|e w1|w1];
      [|exact Hu|exact I].
    apply IH. cbn in Hk. now rewrite Hk.
Qed.

Lemma while_flag_in_range fuel combs rng area m w :
  Forall (fun ij => (fst ij < length (dlist w))%nat /\
                    (snd ij < length (dlist w))%nat) combs ->
  Forall (fun i => (i < length (dlist w))%nat) rng ->
  no_index_error (while_flag fuel combs rng area m w).
Proof.
  revert m w. induction fuel as [|fuel IH]; intros m w Hc Hr.
  - exact I.
  - cbn [while_flag]. unfold bind.
    pose proof (for_combs_in_range _ false _ Hc) as H1.
    pose proof (preserves_for_combs dlist combs false w) as K1.
    destruct (for_combs combs false w) as [f1 w1|e w1|w1];
      [|exact H1|exact I].
    cbn in K1. rewrite <- K1 in Hc, Hr.
    pose proof (for_rng_in_range _ area f1 _ Hr) as H2.
    pose proof (preserves_for_rng dlist rng area f1 w1) as K2.
    destruct (for_rng rng area f1 w1) as [f2 w2|e w2|w2];
      [|exact H2|exact I].
    cbn in K2. rewrite <- K2 in Hc, Hr.
    destruct (advisory_eq (S m) w2) as (w3 & -> & Hl & _).
    destruct f2; [|exact I].
    apply IH; now rewrite Hl.
Qed.

(** X10.  [process_list] never ends with an [IndexError]: every index it
    passes to [uncollide] and [push2area] is within the list. *)
Theorem process_list_no_index_error fuel area w :
  no_index_error (process_list fuel area w).
Proof.
  rewrite process_list_eq. cbv zeta.
  assert (H : no_index_error
                (while_flag fuel (combinations2 (seq 0 (length (dlist w))))
                   (seq 0 (length (dlist w))) area 0 (loop_entry w))).
  { apply while_flag_in_range.
    - apply Forall_forall. intros [i j] Hin.
      apply in_combinations2_seq in Hin. cbn. lia.
    - apply Forall_forall. intros i Hin. apply in_seq in Hin. cbn. lia. }
  now destruct (while_flag _ _ _ _ _ _).
Qed.

(** The separator and the containment step print nothing. *)
Lemma uncollide_silent n1 n2 : preserves out (uncollide n1 n2).
Proof.
  intros w.
  destruct (nth_error (dlist w) n1) as [d1|] eqn:H1;
    [|rewrite uncollide_oob by (now left); reflexivity].
  destruct (nth_error (dlist w) n2) as [d2|] eqn:H2;
    [|rewrite uncollide_oob by (now right); reflexivity].
  rewrite (uncollide_eq _ _ _ _ _ H1 H2). unfold uncollide_closed.
  destruct (Rlt_dec _ _); [|reflexivity].
  now destruct (Req_dec_T _ _).
Qed.

Lemma push2area_silent n area : preserves out (push2area n area).
Proof.
  intros w.
  destruct (nth_error (dlist w) n) as [d|] eqn:H;
    [|rewrite push2area_oob by assumption; reflexivity].
  rewrite (push2area_eq _ _ _ _ H).
  unfold push2area_closed, push_axis0, push_axis1.
  destruct (Rlt_dec (fst (vecs w (fst d)) - snd d) _);
    [|destruct (Rgt_dec (fst (vecs w (fst d)) + snd d) _)];
    cbn [fst snd vecs draws set_vecs set_draws];
    (destruct (Rlt_dec _ _); [|destruct (Rgt_dec _ _)]); reflexivity.
Qed.

Lemma for_combs_silent combs flag : preserves out (for_combs combs flag).
Proof.
  revert flag. induction combs as [|i rest IH]; intros flag; cbn.
  - intros w. reflexivity.
  - apply preserves_bind; [apply uncollide_silent|]. intros b. apply IH.
Qed.

Lemma for_rng_silent rng area flag : preserves out (for_rng rng area flag).
Proof.
  revert flag. induction rng as [|i rest IH]; intros flag; cbn.
  - intros w. reflexivity.
  - apply preserves_bind; [apply push2area_silent|]. intros b. apply IH.
Qed.

(** The loop prints one warning in each pass after the 120th. *)
Lemma while_flag_out fuel combs rng area m w m' w' :
  while_flag fuel combs rng area m w = Ok m' w' ->
  out w' = out w ++ repeat Warning ((m' - 120) - (m - 120)).
Proof.
  revert m w. induction fuel as [|fuel IH]; intros m w; cbn [while_flag].
  - discriminate.
  - unfold bind.
    pose proof (for_combs_silent combs false w) as K1.
    destruct (for_combs combs false w) as [f1 w1| |]; try discriminate.
    pose proof (for_rng_silent rng area f1 w1) as K2.
    destruct (for_rng rng area f1 w1) as [f2 w2| |]; try discriminate.
    cbn in K1, K2.
    unfold advisory, warn, print, ret.
    destruct (Nat.ltb 120 (S m)) eqn:Hm.
    + apply Nat.ltb_lt in Hm. destruct f2.
      * intros H. pose proof (while_flag_inv _ _ _ _ _ _ _ _ H) as (_ & _ & _ & _ & _ & Hlt).
        apply IH in H. rewrite H. cbn [out set_out]. rewrite K2, K1.
        rewrite <- app_assoc. f_equal.
        replace ((m' - 120) - (m - 120))%nat
          with (S ((m' - 120) - (S m - 120)))%nat by lia.
        reflexivity.
      * intros [= <- <-]. cbn [out set_out]. rewrite K2, K1. f_equal.
        replace ((S m - 120) - (m - 120))%nat with 1%nat by lia.
        reflexivity.
    + apply Nat.ltb_ge in Hm. destruct f2.
      * intros H. apply IH in H. rewrite H, K2, K1. f_equal. f_equal. lia.
      * intros [= <- <-]. rewrite K2, K1.
        replace ((S m - 120) - (m - 120))%nat with 0%nat by lia.
        cbn. symmetry. apply app_nil_r.
Qed.

(** X11.  Everything [process_list] emits on a run that returns after
    [m] passes: the two opening messages, one call of [warn] for each
    pass after the 120th (none when [m <= 120]), and the closing message
    with the time between the two clock readings and [m]. *)
Theorem process_list_output fuel area w v w' :
  process_list fuel area w = Ok v w' ->
  let n := length (dlist w) in
  exists m,
    (1 <= m <= fuel)%nat /\
    out w' =
    out w ++ [PrintRemoving n; PrintChecking ((n - 1) * n / 2)%nat]
          ++ repeat Warning (m - 120)
          ++ [PrintDone (clock (S (ticks w)) - clock (ticks w)) m].
Proof.
  intros H n. rewrite process_list_eq in H. cbv zeta in H.
  destruct (while_flag _ _ _ _ _ _) as [m w4| |] eqn:Hloop; try discriminate.
  injection H as _ <-.
  pose proof (preserves_while_flag ticks fuel
                (combinations2 (seq 0 (length (dlist w))))
                (seq 0 (length (dlist w))) area 0%nat (loop_entry w))
    as Hticks.
  rewrite Hloop in Hticks. cbn in Hticks.
  pose proof (while_flag_inv _ _ _ _ _ _ _ _ Hloop) as (_ & _ & _ & _ & _ & Hm).
  apply while_flag_out in Hloop.
  exists m. split; [lia|].
  unfold loop_exit. cbn [out]. rewrite Hloop, Hticks.
  unfold loop_entry. cbn [out]. fold n.
  replace ((m - 120) - (0 - 120))%nat with (m - 120)%nat by lia.
  rewrite <- !app_assoc. reflexivity.
Qed.

Lemma combinations2_length {A} (l : list A) :
  (2 * length (combinations2 l) = length l * (length l - 1))%nat.
Proof.
  induction l as [|x t IH]; cbn [combinations2 length].
  - reflexivity.
  - rewrite length_app, length_map. nia.
Qed.

Lemma combinations2_in {A} (l : list A) a b :
  In (a, b) (combinations2 l) -> In a l /\ In b l.
Proof.
  induction l as [|x t IH]; cbn [combinations2].
  - intros [].
  - rewrite in_app_iff, in_map_iff. intros [(y & [= <- <-] & Hy)|H].
    + split; [now left|now right].
    + destruct (IH H). split; now right.
Qed.

Lemma nodup_map_pair {A} (x : A) (t : list A) :
  NoDup t -> NoDup (map (pair x) t).
Proof.
  induction 1 as [|y t Hy Ht IH]; cbn; constructor; [|exact IH].
  rewrite in_map_iff. intros (z & [= ->] & Hz). contradiction.
Qed.

Lemma combinations2_nodup {A} (l : list A) :
  NoDup l -> NoDup (combinations2 l).
Proof.
  induction 1 as [|x t Hx Ht IH]; cbn [combinations2].
  - constructor.
  - apply NoDup_app; [| exact IH |].
    + now apply nodup_map_pair.
    + intros [a b] Hin Hin'. apply in_map_iff in Hin.
      destruct Hin as (y & [= <- <-] & _).
      apply combinations2_in in Hin'. now destruct Hin'.
Qed.

(** X12.  The pairs of one pass: every pair of indices [i < j] below
    [n], each once and no other, which makes [(n-1)*n/2] calls of
    [uncollide], the number [process_list] prints. *)
Theorem pairs_of_a_pass n :
  (forall i j, In (i, j) (combinations2 (seq 0 n)) <-> (i < j < n)%nat) /\
  NoDup (combinations2 (seq 0 n)) /\
  length (combinations2 (seq 0 n)) = ((n - 1) * n / 2)%nat.
Proof.
  split; [|split].
  - intros i j. rewrite in_combinations2_seq. lia.
  - apply combinations2_nodup, seq_NoDup.
  - pose proof (combinations2_length (seq 0 n)) as H.
    rewrite length_seq in H.
    apply Nat.div_unique_exact; [lia|]. rewrite H. lia.
Qed.

(** ** Vectors and moves *)

Lemma vec_len_sqr v : vec_len v * vec_len v = fst v ^ 2 + snd v ^ 2.
Proof. unfold vec_len. apply sqrt_sqrt. nra. Qed.

Lemma vec_len_triangle a b :
  vec_len (add_vec a b 1) <= vec_len a + vec_len b.
Proof.
  pose proof (vec_len_nonneg a) as Ha. pose proof (vec_len_nonneg b) as Hb.
  pose proof (vec_len_sqr a) as Sa. pose proof (vec_len_sqr b) as Sb.
  set (A := vec_len a) in *. set (B := vec_len b) in *.
  rewrite <- (sqrt_square (A + B)) by lra.
  unfold vec_len, add_vec. cbn [fst snd].
  destruct a as [a1 a2], b as [b1 b2]. cbn [fst snd] in *.
  apply sqrt_le_1_alt.
  assert (Hcs : a1 * b1 + a2 * b2 <= A * B).
  { destruct (Rle_lt_dec (a1 * b1 + a2 * b2) 0) as [Hn|Hp].
    - assert (0 <= A * B) by now apply Rmult_le_pos. lra.
    - apply Rsqr_incr_0_var; [|now apply Rmult_le_pos].
      unfold Rsqr.
      replace (A * B * (A * B)) with ((A * A) * (B * B)) by ring.
      rewrite Sa, Sb.
      pose proof (pow2_ge_0 (a1 * b2 - a2 * b1)). nra. }
  nra.
Qed.

(** X13.  [vec_len] is a norm: it is never negative, it is zero for the
    zero vector only, scaling a vector by [c] (as [add_vec] does with its
    multiplier) scales it by the absolute value of [c], and the length of
    a sum is at most the sum of the lengths. *)
Theorem vec_len_norm :
  (forall v, 0 <= vec_len v) /\
  (forall v, vec_len v = 0 <-> v = (0, 0)) /\
  (forall v c, vec_len (add_vec (0, 0) v c) = Rabs c * vec_len v) /\
  (forall a b, vec_len (add_vec a b 1) <= vec_len a + vec_len b).
Proof.
  split; [exact vec_len_nonneg|]. split; [|split].
  - intros v. split; [apply vec_len_zero|].
    intros ->. unfold vec_len. cbn [fst snd].
    replace (0 ^ 2 + 0 ^ 2) with 0 by ring. apply sqrt_0.
  - intros v c. rewrite <- vec_len_scale. unfold add_vec. cbn [fst snd].
    f_equal. f_equal; ring.
  - exact vec_len_triangle.
Qed.

(** X14.  Moves of one disc along one vector add up, and a move is
    undone by the opposite move: the second world cannot be told from
    the one a single move by the sum of the multipliers gives, and
    moving by [c] and then by [-c] gives a world that cannot be told
    from the first one. *)
Theorem move_disc_compose d v c1 c2 w :
  same_outcome ((move_disc d v c1 ;;; move_disc d v c2) w)
               (move_disc d v (c1 + c2) w) /\
  same_outcome ((move_disc d v c1 ;;; move_disc d v (- c1)) w) (Ok tt w).
Proof.
  unfold bind. rewrite !move_disc_eq.
  split; (split; [reflexivity|]); repeat split; cbn [vecs set_vecs]; intros l;
    (destruct (Nat.eq_dec l (fst d)) as [->|Hn];
     [rewrite !moved_same; unfold add_vec; cbn [fst snd];
      try (rewrite <- surjective_pairing at 1); 
      first [ f_equal; ring
            | destruct (vecs w (fst d)); cbn [fst snd]; f_equal; ring ]
     |now rewrite !moved_other]).
Qed.


(** ** Generation of discs *)

Lemma set_nth_middle {A} (pre : list A) x t a :
  set_nth (pre ++ x :: t) (length pre) a = pre ++ a :: t.
Proof. induction pre as [|p pre IH]; cbn; [reflexivity|now rewrite IH]. Qed.

Lemma assign_eq dl i d w :
  (i < length dl)%nat -> assign dl i d w = Ok (set_nth dl i (Some d)) w.
Proof.
  intros H. unfold assign. apply Nat.ltb_lt in H. now rewrite H.
Qed.

Lemma gen_loop_eq base area r_lims k :
  forall s pre w,
    length pre = s ->
    gen_loop (seq s k) base area r_lims (pre ++ repeat None k) w =
    Ok (pre ++ map Some (gen_list base r_lims (draws w) s k))
       (World (dlist w)
              (gen_store (vecs w) base area r_lims (draws w) s k)
              (3 * k + draws w)%nat (ticks w) (out w)).
Proof.
  induction k as [|k IH]; intros s pre w Hs; subst s.
  - cbn. rewrite app_nil_r. now destruct w.
  - cbn [seq gen_loop repeat].
    unfold bind, uniform, random, ret, make_disc, store_vec.
    cbn -[Nat.ltb Nat.mul Nat.add assign].
    rewrite assign_eq by (rewrite length_app; cbn [length]; lia).
    rewrite set_nth_middle.
    match goal with
    | |- gen_loop _ _ _ _ (pre ++ ?x :: ?t) _ = _ =>
        replace (pre ++ x :: t) with ((pre ++ [x]) ++ t)
          by (now rewrite <- app_assoc)
    end.
    rewrite IH by (rewrite length_app; cbn [length]; lia).
    cbn [dlist vecs draws ticks out set_vecs set_draws gen_list gen_store map].
    rewrite <- app_assoc. cbn [app].
    f_equal. f_equal. lia.
Qed.

Lemma gen_list_length base r_lims k :
  forall j s, length (gen_list base r_lims j s k) = k.
Proof. induction k as [|k IH]; intros j s; cbn; [reflexivity|now rewrite IH]. Qed.

Lemma gen_list_fst base r_lims k :
  forall j s, map fst (gen_list base r_lims j s k) = seq (base + s) k.
Proof.
  induction k as [|k IH]; intros j s; cbn [gen_list map seq fst].
  - reflexivity.
  - rewrite IH. f_equal. f_equal. lia.
Qed.

Lemma gen_list_nth base r_lims k :
  forall j s i,
    (i < k)%nat ->
    nth_error (gen_list base r_lims j s k) i =
    Some ((base + s + i)%nat, gen_r r_lims (3 * i + j)).
Proof.
  induction k as [|k IH]; intros j s i Hi; [lia|].
  destruct i as [|i]; cbn [gen_list nth_error].
  - replace (base + s + 0)%nat with (base + s)%nat by lia.
    replace (3 * 0 + j)%nat with j by lia. reflexivity.
  - rewrite IH by lia.
    replace (base + S s + i)%nat with (base + s + S i)%nat by lia.
    replace (3 * i + (3 + j))%nat with (3 * S i + j)%nat by lia. reflexivity.
Qed.

Lemma gen_store_other base area r_lims k :
  forall f j s l,
    (l < base + s \/ base + s + k <= l)%nat ->
    gen_store f base area r_lims j s k l = f l.
Proof.
  induction k as [|k IH]; intros f j s l Hl; cbn [gen_store].
  - reflexivity.
  - rewrite IH by lia. apply upd_other. lia.
Qed.

Lemma gen_store_at base area r_lims k :
  forall f j s i,
    (i < k)%nat ->
    gen_store f base area r_lims j s k (base + s + i)%nat =
    (gen_x area r_lims (3 * i + j), gen_y area r_lims (3 * i + j)).
Proof.
  induction k as [|k IH]; intros f j s i Hi; [lia|].
  cbn [gen_store]. destruct i as [|i].
  - rewrite gen_store_other by lia.
    replace (base + s + 0)%nat with (base + s)%nat by lia.
    rewrite upd_same. replace (3 * 0 + j)%nat with j by lia. reflexivity.
  - replace (base + s + S i)%nat with (base + S s + i)%nat by lia.
    rewrite IH by lia.
    replace (3 * i + (3 + j))%nat with (3 * S i + j)%nat by lia. reflexivity.
Qed.

Lemma gen_discs_eq base n area r_lims w :
  gen_discs base n area r_lims w =
  Ok (map Some (gen_list base r_lims (draws w) 0 n))
     (World (dlist w) (gen_store (vecs w) base area r_lims (draws w) 0 n)
            (3 * n + draws w)%nat (ticks w) (out w)).
Proof.
  unfold gen_discs. cbv zeta.
  exact (gen_loop_eq base area r_lims n 0%nat [] w eq_refl).
Qed.

Lemma gen_r_bounds r_lims j :
  unit_draws -> fst r_lims <= snd r_lims ->
  fst r_lims <= gen_r r_lims j <= snd r_lims.
Proof.
  intros Hu Hl. unfold gen_r, uniform_of. specialize (Hu j). nra.
Qed.

(** X16.  [gen_discs] never fails and returns a list of [n] discs with
    no slot left unassigned; the [n] centres are [n] different objects;
    three draws are taken per disc; the list passed around so far and
    every centre that existed before are untouched. *)
Theorem gen_discs_fresh base n area r_lims w :
  exists ds w',
    gen_discs base n area r_lims w = Ok (map Some ds) w' /\
    length ds = n /\
    NoDup (map fst ds) /\
    draws w' = (draws w + 3 * n)%nat /\
    dlist w' = dlist w /\
    (forall l, (l < base \/ base + n <= l)%nat -> vecs w' l = vecs w l).
Proof.
  rewrite gen_discs_eq. eexists. eexists. split; [reflexivity|].
  split; [apply gen_list_length|].
  split; [rewrite gen_list_fst; apply seq_NoDup|].
  split; [cbn; lia|]. split; [reflexivity|].
  intros l Hl. cbn [vecs]. apply gen_store_other. lia.
Qed.

(** X17.  With draws in [0, 1) and limits in order, every radius that
    [gen_discs] picks lies within the limits. *)
Theorem gen_discs_radii base n area r_lims w :
  unit_draws -> fst r_lims <= snd r_lims ->
  exists ds w',
    gen_discs base n area r_lims w = Ok (map Some ds) w' /\
    Forall (fun d => fst r_lims <= snd d <= snd r_lims) ds.
Proof.
  intros Hu Hl. rewrite gen_discs_eq. eexists. eexists.
  split; [reflexivity|].
  apply Forall_forall. intros d Hin.
  apply In_nth_error in Hin. destruct Hin as [i Hi].
  assert (Hlt : (i < n)%nat).
  { rewrite <- (gen_list_length base r_lims n (draws w) 0).
    apply nth_error_Some. intros Hn. unfold disc in *. congruence. }
  rewrite gen_list_nth in Hi by exact Hlt. injection Hi as <-.
  cbn [snd]. now apply gen_r_bounds.
Qed.

Lemma gen_discs_inside_at base n area r_lims w i d :
  unit_draws -> fst r_lims <= snd r_lims ->
  2 * snd r_lims <= snd (fst area) - fst (fst area) ->
  2 * snd r_lims <= snd (snd area) - fst (snd area) ->
  nth_error (gen_list base r_lims (draws w) 0 n) i = Some d ->
  let f := gen_store (vecs w) base area r_lims (draws w) 0 n in
  (fst (fst area) <= fst (f (fst d)) - snd d /\
   fst (f (fst d)) + snd d <= snd (fst area)) /\
  (fst (snd area) <= snd (f (fst d)) - snd d /\
   snd (f (fst d)) + snd d <= snd (snd area)).
Proof.
  intros Hu Hl Hw Hh Hi f.
  assert (Hlt : (i < n)%nat).
  { rewrite <- (gen_list_length base r_lims n (draws w) 0).
    apply nth_error_Some. intros Hn. unfold disc in *. congruence. }
  rewrite gen_list_nth in Hi by exact Hlt.
  pose proof (gen_store_at base area r_lims n (vecs w) (draws w) 0 i Hlt)
    as Hat.
  remember (3 * i + draws w)%nat as j eqn:Hj.
  injection Hi as <-.
  unfold f. cbn [fst snd]. rewrite Hat. cbn [fst snd].
  pose proof (gen_r_bounds r_lims j Hu Hl) as Hr.
  unfold gen_x, gen_y, uniform_of.
  pose proof (Hu (S j)) as U1.
  pose proof (Hu (S (S j))) as U2.
  set (r := gen_r r_lims j) in *.
  destruct area as [[x0 xm] [y0 ym]]. cbn [fst snd] in *.
  repeat split; nra.
Qed.

(** X18.  With draws in [0, 1), limits in order and an area at least as
    wide and as high as the largest diameter allowed, every disc that
    [gen_discs] returns lies within the area. *)
Theorem gen_discs_inside base n area r_lims w :
  unit_draws -> fst r_lims <= snd r_lims ->
  2 * snd r_lims <= snd (fst area) - fst (fst area) ->
  2 * snd r_lims <= snd (snd area) - fst (snd area) ->
  exists ds w',
    gen_discs base n area r_lims w = Ok (map Some ds) w' /\
    all_inside (install ds w') area.
Proof.
  intros Hu Hl Hw Hh. rewrite gen_discs_eq. eexists. eexists.
  split; [reflexivity|].
  intros i d Hi. cbn [install dlist] in Hi.
  exact (gen_discs_inside_at base n area r_lims w i d Hu Hl Hw Hh Hi).
Qed.

(** X19.  In a list that [gen_discs] has just returned, a call of
    [uncollide] leaves every slot other than the two it is given as it
    was, and so does [push2area] for every slot other than its own. *)
Theorem gen_discs_frame base n area r_lims w :
  exists ds w',
    gen_discs base n area r_lims w = Ok (map Some ds) w' /\
    (forall n1 n2 i,
        i <> n1 -> i <> n2 ->
        disc_at (final (uncollide n1 n2 (install ds w'))) i =
        disc_at (install ds w') i) /\
    (forall m area' i,
        i <> m ->
        disc_at (final (push2area m area' (install ds w'))) i =
        disc_at (install ds w') i).
Proof.
  rewrite gen_discs_eq. eexists. eexists. split; [reflexivity|].
  assert (Hnd : forall w0,
             NoDup (map fst (dlist (install
                      (gen_list base r_lims (draws w) 0 n) w0)))).
  { intros w0. cbn [install dlist]. rewrite gen_list_fst. apply seq_NoDup. }
  split.
  - intros n1 n2 i H1 H2. apply uncollide_frame_nodup; auto.
  - intros m area' i H. apply push2area_frame_nodup; auto.
Qed.

(** ** Plotting *)

Lemma skipn_cons_nth {A} (l : list A) :
  forall k c rest,
    skipn k l = c :: rest ->
    nth_error l k = Some c /\ rest = skipn (S k) l /\ (k < length l)%nat.
Proof.
  induction l as [|x l IH]; intros k c rest H.
  - destruct k; discriminate.
  - destruct k as [|k].
    + cbn in H. injection H as <- <-. cbn. repeat split. lia.
    + cbn [skipn] in H. destruct (IH _ _ _ H) as (H1 & H2 & H3).
      cbn [nth_error length]. repeat split; [exact H1|exact H2|lia].
Qed.

Lemma islice_cycle_length pal n :
  pal <> [] -> forall cur, length (islice_cycle pal cur n) = n.
Proof.
  intros Hne. induction n as [|n IH]; intros cur; cbn [islice_cycle].
  - reflexivity.
  - destruct cur as [|c rest]; [destruct pal as [|c rest]; [contradiction|]|];
      cbn [length]; now rewrite IH.
Qed.

Lemma islice_cycle_nth pal n :
  pal <> [] ->
  forall cur k i,
    cur = skipn k pal -> (k <= length pal)%nat -> (i < n)%nat ->
    nth_error (islice_cycle pal cur n) i =
    nth_error pal ((k + i) mod length pal).
Proof.
  intros Hne. induction n as [|n IH]; intros cur k i Hcur Hk Hi; [lia|].
  cbn [islice_cycle]. destruct cur as [|c rest].
  - assert (k = length pal).
    { symmetry in Hcur. apply skipn_all_iff in Hcur. lia. }
    subst k. destruct pal as [|c rest] eqn:Hp; [contradiction|].
    rewrite <- Hp in *. destruct i as [|i].
    + cbn [nth_error]. rewrite Nat.add_0_r, Nat.Div0.mod_same.
      now rewrite Hp.
    + cbn [nth_error]. rewrite (IH rest 1%nat i).
      * f_equal.
        replace (length pal + S i)%nat with (1 + i + 1 * length pal)%nat by lia.
        now rewrite Nat.Div0.mod_add.
      * now rewrite Hp.
      * rewrite Hp. cbn. lia.
      * lia.
  - symmetry in Hcur. destruct (skipn_cons_nth _ _ _ _ Hcur) as (H1 & H2 & H3).
    destruct i as [|i].
    + cbn [nth_error]. rewrite Nat.add_0_r, Nat.mod_small by exact H3.
      now rewrite H1.
    + cbn [nth_error]. rewrite (IH rest (S k) i H2) by lia.
      f_equal. f_equal. lia.
Qed.

Lemma plot_loop_eq clr color_of w :
  forall items ax,
    (forall i d, In (i, d) items -> pick_color clr i w = Ok (color_of i) w) ->
    plot_loop items clr ax w =
    Ok (ax ++ map (fun id => circle_of w (snd id) (color_of (fst id))) items) w.
Proof.
  induction items as [|[i d] rest IH]; intros ax Hc; cbn [plot_loop map].
  - unfold ret. now rewrite app_nil_r.
  - unfold bind, load. rewrite (Hc i d) by now left.
    rewrite IH by (intros i' d' H'; apply (Hc i' d'); now right).
    rewrite <- app_assoc. reflexivity.
Qed.

Lemma dlist2plot_eq ax palette color_of w :
  (forall i, (i < length (dlist w))%nat ->
             palette_color palette i = Some (color_of i)) ->
  dlist2plot ax palette w =
  Ok (ax ++ map (fun id => circle_of w (snd id) (color_of (fst id)))
              (combine (seq 0 (length (dlist w))) (dlist w))) w.
Proof.
  intros Hc. unfold dlist2plot, bind, len. apply plot_loop_eq.
  intros i d Hin.
  assert (Hi : (i < length (dlist w))%nat).
  { apply in_combine_l in Hin. apply in_seq in Hin. lia. }
  specialize (Hc i Hi). unfold palette_color in Hc. unfold pick_color.
  destruct palette as [pal|];
    [|injection Hc as Hc'; rewrite <- Hc'; reflexivity].
  assert (Hne : pal <> []).
  { intros ->. rewrite nth_error_nil in Hc. discriminate. }
  rewrite (islice_cycle_nth pal (length (dlist w)) Hne pal 0%nat i eq_refl)
    by lia.
  cbn [Nat.add]. now rewrite Hc.
Qed.

Lemma combine_seq_nth {A} (l : list A) :
  forall s i d,
    nth_error l i = Some d ->
    nth_error (combine (seq s (length l)) l) i = Some ((s + i)%nat, d).
Proof.
  induction l as [|x l IH]; intros s i d H.
  - destruct i; discriminate.
  - destruct i as [|i]; cbn in *.
    + injection H as <-. now rewrite Nat.add_0_r.
    + rewrite (IH (S s) i d H).
      replace (s + S i)%nat with (S s + i)%nat by lia. reflexivity.
Qed.

Lemma palette_color_defined palette i :
  palette <> Some [] -> exists c, palette_color palette i = Some c.
Proof.
  intros Hne. destruct palette as [pal|]; cbn; [|eauto].
  destruct (nth_error pal (i mod length pal)) as [c|] eqn:H; [eauto|].
  apply nth_error_None in H. destruct pal as [|c pal]; [congruence|].
  pose proof (Nat.mod_upper_bound i (length (c :: pal))) as Hb.
  cbn [length] in *. lia.
Qed.

Lemma dlist2plot_empty ax w :
  dlist w <> [] -> dlist2plot ax (Some []) w = Raise IndexError w.
Proof.
  intros Hne. unfold dlist2plot, bind, len.
  destruct (dlist w) as [|d rest]; [contradiction|].
  cbn [length seq combine plot_loop]. unfold bind, load, pick_color.
  cbn [islice_cycle]. reflexivity.
Qed.

(** The colours of a palette that can serve every slot. *)
Lemma dlist2plot_colors palette :
  palette <> Some [] ->
  exists color_of, forall i, palette_color palette i = Some (color_of i).
Proof.
  intros Hne.
  exists (fun i => match palette_color palette i with
                   | Some c => c
                   | None => EmptyString
                   end).
  intros i. now destruct (palette_color_defined palette i Hne) as [c ->].
Qed.

(** X20.  With no palette or a palette that is not empty, [dlist2plot]
    adds one circle per disc, in list order, after the patches already
    there: the circle for slot [i] has the disc's centre and radius as
    they are at the time of the call, opacity 0.4, and the colour
    ['#5B9279'] when no palette is given, else the palette's colour at
    position [i] modulo the length of the palette.  Nothing in the world
    is touched. *)
Theorem dlist2plot_circles ax palette w :
  palette <> Some [] ->
  exists drawn,
    dlist2plot ax palette w = Ok (ax ++ drawn) w /\
    length drawn = length (dlist w) /\
    forall i d,
      nth_error (dlist w) i = Some d ->
      exists c,
        palette_color palette i = Some c /\
        nth_error drawn i = Some (circle_of w d c).
Proof.
  intros Hne. destruct (dlist2plot_colors palette Hne) as [color_of Hc].
  eexists. split; [apply (dlist2plot_eq ax palette color_of); auto|].
  split.
  - rewrite length_map, length_combine, length_seq. lia.
  - intros i d Hi. exists (color_of i). split; [apply Hc|].
    rewrite nth_error_map, (combine_seq_nth _ 0 i d Hi). reflexivity.
Qed.

(** X21.  An empty palette (which is not [None]) serves no slot: with at
    least one disc in the list [dlist2plot] raises [IndexError] at the
    first disc; with an empty list it returns, having added nothing. *)
Theorem dlist2plot_empty_palette ax w :
  (dlist w = [] -> dlist2plot ax (Some []) w = Ok ax w) /\
  (dlist w <> [] -> dlist2plot ax (Some []) w = Raise IndexError w).
Proof.
  split; [|apply dlist2plot_empty].
  intros H. unfold dlist2plot, bind, len. rewrite H. reflexivity.
Qed.

(** X22.  When [plot_uncolliding] returns, the first subplot holds, for
    every slot, a circle where the disc was when the call began, the
    second a circle of the same radius and colour where the disc is at
    the end, each followed by the dashed rectangle of the area; the
    discs of the second subplot do not overlap and lie within the
    area. *)
Theorem plot_uncolliding_picture fuel env area palette w env' ax0 ax1 log w' :
  plot_uncolliding fuel env area palette w = Ok (env', ax0, ax1, log) w' ->
  let n := length (dlist w) in
  let frame := Rectangle (fst (fst area)) (fst (snd area))
                 (snd (fst area) - fst (fst area))
                 (snd (snd area) - fst (snd area))
                 "#600201" false "--" in
  nth_error ax0 n = Some frame /\ length ax0 = S n /\
  nth_error ax1 n = Some frame /\ length ax1 = S n /\
  (forall i d,
      nth_error (dlist w) i = Some d ->
      exists c,
        nth_error ax0 i = Some (circle_of w d c) /\
        nth_error ax1 i = Some (circle_of w' d c)) /\
  no_overlap w' /\ all_inside w' area.
Proof.
  intros H n frame. unfold plot_uncolliding in H. cbv zeta in H.
  unfold bind at 1 in H.
  assert (Hpal : palette <> Some [] \/ dlist w = []).
  { destruct palette as [[|c pal]|]; try (left; discriminate).
    destruct (dlist w) as [|d rest] eqn:Hd; [now right|].
    rewrite dlist2plot_empty in H by (rewrite Hd; discriminate).
    discriminate. }
  assert (Hcol : exists color_of,
             forall i, (i < n)%nat ->
                       palette_color palette i = Some (color_of i)).
  { destruct Hpal as [Hne|Hnil].
    - destruct (dlist2plot_colors palette Hne) as [f Hf]. exists f. auto.
    - exists (fun _ => EmptyString). intros i Hi. unfold n in Hi.
      rewrite Hnil in Hi. cbn in Hi. lia. }
  destruct Hcol as [color_of Hc].
  rewrite (dlist2plot_eq [] palette color_of w Hc) in H.
  unfold bind at 1 in H.
  destruct (process_list fuel area w) as [v w1| |] eqn:Hrun; try discriminate.
  apply process_list_ok_inv in Hrun. destruct Hrun as (Hl & Hno & Hin).
  unfold bind at 1 in H.
  rewrite (dlist2plot_eq [] palette color_of w1) in H
    by (rewrite Hl; exact Hc).
  unfold ret in H. injection H as _ <- <- _ <-.
  rewrite Hl. fold n. unfold area2plot. cbn [app].
  assert (Hlen : forall w0, dlist w0 = dlist w ->
            length (map (fun id => circle_of w0 (snd id) (color_of (fst id)))
                      (combine (seq 0 n) (dlist w))) = n).
  { intros w0 _. rewrite length_map, length_combine, length_seq.
    unfold n. lia. }
  split; [|split; [|split; [|split; [|split; [|split; assumption]]]]].
  - rewrite nth_error_app2 by (rewrite Hlen; auto).
    rewrite Hlen by auto. now rewrite Nat.sub_diag.
  - rewrite length_app, Hlen by auto. cbn. lia.
  - rewrite nth_error_app2 by (rewrite Hlen; auto).
    rewrite Hlen by auto. now rewrite Nat.sub_diag.
  - rewrite length_app, Hlen by auto. cbn. lia.
  - intros i d Hi. exists (color_of i).
    assert (Hlt : (i < n)%nat)
      by (apply nth_error_Some; unfold disc in *; congruence).
    split; rewrite nth_error_app1 by (rewrite Hlen; auto);
      rewrite nth_error_map; unfold n;
      rewrite (combine_seq_nth _ 0 i d Hi); reflexivity.
Qed.

(** X23.  After [suppress_qt_debug] the variable [QT_LOGGING_RULES] is
    ["*.debug=false"], [SESSION_MANAGER] is not set, whether it was set
    before or not, every other variable is as it was, and a second call
    changes nothing. *)
Theorem suppress_qt_debug_environ env :
  let env' := suppress_qt_debug env in
  env' "QT_LOGGING_RULES"%string = Some "*.debug=false"%string /\
  env' "SESSION_MANAGER"%string = None /\
  (forall k, k <> "QT_LOGGING_RULES"%string ->
             k <> "SESSION_MANAGER"%string -> env' k = env k) /\
  (forall k, suppress_qt_debug env' k = env' k).
Proof.
  assert (Hall : forall e : environ,
             suppress_qt_debug e "QT_LOGGING_RULES"%string
               = Some "*.debug=false"%string /\
             suppress_qt_debug e "SESSION_MANAGER"%string = None /\
             (forall k, k <> "QT_LOGGING_RULES"%string ->
                        k <> "SESSION_MANAGER"%string ->
                        suppress_qt_debug e k = e k)).
  { intros e. unfold suppress_qt_debug, env_del, env_set. cbv zeta.
    change (String.eqb "SESSION_MANAGER" "QT_LOGGING_RULES") with false.
    cbv beta iota.
    destruct (e "SESSION_MANAGER"%string) as [v|] eqn:Hs.
    - split; [reflexivity|]. split; [reflexivity|].
      intros k H1 H2.
      destruct (String.eqb_spec k "SESSION_MANAGER"); [contradiction|].
      now destruct (String.eqb_spec k "QT_LOGGING_RULES").
    - split; [reflexivity|].
      split; [change (String.eqb "SESSION_MANAGER" "QT_LOGGING_RULES")
                with false; exact Hs|].
      intros k H1 H2.
      now destruct (String.eqb_spec k "QT_LOGGING_RULES"). }
  intros env'. destruct (Hall env) as (H1 & H2 & H3).
  split; [exact H1|]. split; [exact H2|]. split; [exact H3|].
  intros k. destruct (Hall env') as (K1 & K2 & K3).
  destruct (String.eqb_spec k "QT_LOGGING_RULES") as [->|N1];
    [now rewrite K1|].
  destruct (String.eqb_spec k "SESSION_MANAGER") as [->|N2];
    [now rewrite K2|].
  now apply K3.
Qed.

End Discs.

(** ** Concrete runs *)

Lemma vec_len_axis a : 0 <= a -> vec_len (a, 0) = a.
Proof.
  intros Ha. unfold vec_len. cbn [fst snd].
  replace (a ^ 2 + 0 ^ 2) with (Rsqr a) by (unfold Rsqr; ring).
  now apply sqrt_Rsqr.
Qed.

Lemma distance_w_overlap : distance w_overlap (0%nat, 1) (1%nat, 1) = 1.
Proof.
  unfold distance, center_of, add_vec. cbn [w_overlap vecs two_centres fst snd].
  replace (1 + -1 * 0, 0 + -1 * 0) with (1, 0) by (f_equal; ring).
  apply vec_len_axis. lra.
Qed.

Lemma distance_w_apart : distance w_apart (0%nat, 1) (1%nat, 1) = 3.
Proof.
  unfold distance, center_of, add_vec. cbn [w_apart vecs two_centres fst snd].
  replace (3 + -1 * 0, 0 + -1 * 0) with (3, 0) by (f_equal; ring).
  apply vec_len_axis. lra.
Qed.

Lemma next_k_half w : next_k rnd_half w = 1.5005.
Proof. unfold next_k, uniform_of, rnd_half. lra. Qed.

Lemma uncollide_separates_witness :
  exists w',
    uncollide rnd_half 0 1 w_overlap = Ok true w' /\
    distance w' (0%nat, 1) (1%nat, 1) = 1 + (1 + 1 - 1) * 1.5005 /\
    1 + 1 <= distance w' (0%nat, 1) (1%nat, 1).
Proof.
  destruct (uncollide_separates rnd_half 0 1 (0%nat, 1) (1%nat, 1) w_overlap)
    as (w' & Hrun & Hd & Hge & _).
  - reflexivity.
  - reflexivity.
  - cbn. intros [= H]. lra.
  - rewrite distance_w_overlap. cbn. lra.
  - rewrite next_k_half. lra.
  - exists w'. rewrite distance_w_overlap, next_k_half in Hd.
    split; [exact Hrun|]. split; [exact Hd|exact Hge].
Defined.

Lemma uncollide_keeps_midpoint_witness :
  exists w',
    uncollide rnd_half 0 1 w_overlap = Ok true w' /\
    add_vec (center_of w' (0%nat, 1)) (center_of w' (1%nat, 1)) 1 =
    add_vec (0, 0) (1, 0) 1.
Proof.
  destruct (uncollide_keeps_midpoint rnd_half 0 1 (0%nat, 1) (1%nat, 1)
              w_overlap) as (w' & Hrun & Hsum).
  - reflexivity.
  - reflexivity.
  - cbn. intros [= H]. lra.
  - rewrite distance_w_overlap. cbn. lra.
  - exists w'. split; [exact Hrun|exact Hsum].
Defined.

Lemma uncollide_apart_witness :
  uncollide rnd_half 0 1 w_apart = Ok false w_apart.
Proof.
  apply (uncollide_apart rnd_half 0 1 (0%nat, 1) (1%nat, 1) w_apart).
  - reflexivity.
  - reflexivity.
  - rewrite distance_w_apart. cbn. lra.
Defined.

Lemma uncollide_coincident_witness :
  exists w',
    uncollide rnd_half 0 1 w_coincident = Raise ZeroDivisionError w' /\
    vecs w' = vecs w_coincident /\ dlist w' = dlist w_coincident.
Proof.
  apply (uncollide_coincident rnd_half 0 1 (0%nat, 1) (1%nat, 1) w_coincident).
  - reflexivity.
  - reflexivity.
  - reflexivity.
  - cbn. lra.
Defined.

Lemma margin_half i : margin rnd_half i = 1.5.
Proof. unfold margin, uniform_of, rnd_half. lra. Qed.

Lemma push2area_contains_witness :
  exists w',
    push2area rnd_half 0 area15 w_left = Ok true w' /\
    inside0 w' (0%nat, 2) area15 /\ inside1 w' (0%nat, 2) area15.
Proof.
  apply (push2area_contains rnd_half 0 (0%nat, 2) area15 w_left).
  - reflexivity.
  - cbn. lra.
  - cbn. lra.
  - cbn. lra.
  - rewrite margin_half. lra.
  - rewrite margin_half. lra.
  - unfold inside0, center_of. cbn. intros [[H _] _]. lra.
Defined.

(** C3 as stated fails: the area is wider and higher than the diameter,
    the draw 1.9 lies in (1, 2), the disc crosses the lower bound of the
    first axis; [push2area] returns [True] and leaves the disc across the
    upper bound of that axis. *)
Lemma push2area_diameter_counterexample :
  2 * 1 < snd (fst area_narrow) - fst (fst area_narrow) /\
  2 * 1 < snd (snd area_narrow) - fst (snd area_narrow) /\
  1 < margin rnd_high 0 < 2 /\
  fst (center_of w_narrow (0%nat, 1)) - 1 < fst (fst area_narrow) /\
  exists w',
    push2area rnd_high 0 area_narrow w_narrow = Ok true w' /\
    ~ inside0 w' (0%nat, 1) area_narrow.
Proof.
  assert (Hk : margin rnd_high 0 = 1.9)
    by (unfold margin, uniform_of, rnd_high; lra).
  split; [cbn; lra|]. split; [cbn; lra|]. split; [rewrite Hk; lra|].
  split; [cbn; lra|].
  rewrite (push2area_eq rnd_high 0 (0%nat, 1) area_narrow w_narrow eq_refl).
  unfold push2area_closed, push_axis0, push_axis1.
  cbn [fst snd area_narrow w_narrow vecs draws two_centres].
  destruct (Rlt_dec (-1 / 2 - 1) (-1)) as [_|Hn]; [|exfalso; lra].
  cbn [fst snd vecs draws set_vecs set_draws].
  rewrite set0_same. cbn [fst snd two_centres].
  destruct (Rlt_dec (0 - 1) (-15)) as [Hy|_]; [exfalso; lra|].
  destruct (Rgt_dec (0 + 1) 15) as [Hy|_]; [exfalso; unfold Rgt in Hy; lra|].
  eexists. split; [reflexivity|].
  unfold inside0, center_of.
  cbn [fst snd vecs draws set_vecs set_draws area_narrow].
  rewrite set0_same. cbn [fst snd].
  fold (margin rnd_high 0). rewrite Hk. intros [_ H]. lra.
Qed.

(** C10 as stated fails when a centre object is shared: slot 2 is
    neither of the slots 0 and 1 named in the call, and the disc seen
    there is not what it was. *)
Lemma shared_centre_counterexample :
  2%nat <> 0%nat /\ 2%nat <> 1%nat /\
  exists w',
    uncollide rnd_half 0 1 w_shared = Ok true w' /\
    disc_at w' 2 <> disc_at w_shared 2.
Proof.
  split; [discriminate|]. split; [discriminate|].
  assert (Hd : distance w_shared (0%nat, 1) (1%nat, 1) = 1)
    by exact distance_w_overlap.
  destruct (uncollide_overlap rnd_half 0 1 (0%nat, 1) (1%nat, 1) w_shared)
    as (w' & Hrun & Hl & Hc1 & _).
  - reflexivity.
  - reflexivity.
  - cbn. intros [= H]. lra.
  - rewrite Hd. cbn. lra.
  - exists w'. split; [exact Hrun|].
    unfold disc_at. rewrite Hl. cbn [w_shared dlist nth_error fst snd].
    change (vecs w' 0%nat) with (center_of w' (0%nat, 1)).
    rewrite Hc1, Hd, next_k_half.
    unfold add_vec, center_of. cbn [w_shared vecs two_centres fst snd].
    intros [= H]. lra.
Qed.

Lemma unshared_discs_unchanged_witness :
  disc_at (final (uncollide rnd_half 0 1 w_three)) 2 = disc_at w_three 2.
Proof.
  apply (proj1 (unshared_discs_unchanged rnd_half) 0%nat 1%nat w_three 2%nat).
  - intros (di & dj & Hi & Hj & Heq). cbn in Hi, Hj.
    injection Hi as <-. injection Hj as <-. discriminate Heq.
  - intros (di & dj & Hi & Hj & Heq). cbn in Hi, Hj.
    injection Hi as <-. injection Hj as <-. discriminate Heq.
Defined.

Lemma no_overlap_w_apart : no_overlap w_apart.
Proof.
  intros i j di dj Hij Hi Hj.
  destruct i as [|[|i]], j as [|[|j]]; cbn in Hi, Hj;
    try (now destruct i); try (now destruct j); try congruence;
    injection Hi as <-; injection Hj as <-.
  - rewrite distance_w_apart. cbn. lra.
  - rewrite distance_sym, distance_w_apart. cbn. lra.
Qed.

Lemma all_inside_w_apart : all_inside w_apart area15.
Proof.
  intros i d Hi. unfold inside0, inside1, center_of.
  destruct i as [|[|i]]; cbn in Hi; try (now destruct i);
    injection Hi as <-; cbn; lra.
Qed.

Lemma process_list_establishes_witness :
  exists w',
    process_list rnd_half clock_unit 1 area15 w_apart = Ok PyNone w' /\
    no_overlap w' /\ all_inside w' area15.
Proof.
  destruct (process_list_quiet rnd_half clock_unit 0 area15 w_apart
              no_overlap_w_apart all_inside_w_apart) as (w' & Hrun & _).
  exists w'. split; [exact Hrun|].
  exact (process_list_establishes rnd_half clock_unit 1 area15 w_apart
           PyNone w' Hrun).
Defined.

Lemma process_list_idempotent_witness :
  exists w',
    process_list rnd_half clock_unit 1 area15 w_apart = Ok PyNone w' /\
    dlist w' = dlist w_apart /\ vecs w' = vecs w_apart /\
    draws w' = draws w_apart /\
    out w' = [PrintRemoving 2; PrintChecking 1;
              PrintDone (clock_unit 1 - clock_unit 0) 1].
Proof.
  exact (process_list_idempotent rnd_half clock_unit 0 area15 w_apart
           no_overlap_w_apart all_inside_w_apart).
Defined.

Lemma process_list_returns_none_witness :
  exists w',
    process_list rnd_half clock_unit 1 area15 w_apart = Ok PyNone w' /\
    exists m earlier,
      (1 <= m <= 1)%nat /\
      out w' = earlier ++ [PrintDone (clock_unit 1 - clock_unit 0) m].
Proof.
  destruct (process_list_quiet rnd_half clock_unit 0 area15 w_apart
              no_overlap_w_apart all_inside_w_apart) as (w' & Hrun & _).
  exists w'. split; [exact Hrun|].
  exact (proj2 (proj2 (process_list_returns_none rnd_half clock_unit 1 area15
                         w_apart PyNone w' Hrun))).
Defined.

(** C5 as stated fails: the call returns, and what it hands back is
    [None], not a pair of an iteration count and an elapsed time. *)
Lemma process_list_value_counterexample :
  exists w',
    process_list rnd_half clock_unit 1 area15 w_apart = Ok PyNone w' /\
    forall (iterations : Z) (elapsed : R),
      PyNone <> PyPair (PyInt iterations) (PyFloat elapsed).
Proof.
  destruct (process_list_quiet rnd_half clock_unit 0 area15 w_apart
              no_overlap_w_apart all_inside_w_apart) as (w' & Hrun & _).
  exists w'. split; [exact Hrun|]. intros; discriminate.
Qed.

(** ** Concrete runs of the further properties *)

Lemma unit_draws_rnd_half : unit_draws rnd_half.
Proof. intros i. unfold rnd_half. lra. Qed.

Lemma centres_w_overlap :
  center_of w_overlap (0%nat, 1) <> center_of w_overlap (1%nat, 1).
Proof. cbn. intros [= H]. lra. Qed.

Lemma overlap_w_overlap : distance w_overlap (0%nat, 1) (1%nat, 1) < 1 + 1.
Proof. rewrite distance_w_overlap. lra. Qed.

Lemma uncollide_outcomes_witness :
  (1 + 1 <= distance w_overlap (0%nat, 1) (1%nat, 1) /\
   uncollide rnd_half 0 1 w_overlap = Ok false w_overlap) \/
  (distance w_overlap (0%nat, 1) (1%nat, 1) < 1 + 1 /\
   center_of w_overlap (0%nat, 1) = center_of w_overlap (1%nat, 1) /\
   uncollide rnd_half 0 1 w_overlap =
   Raise ZeroDivisionError (set_draws w_overlap 1)) \/
  (distance w_overlap (0%nat, 1) (1%nat, 1) < 1 + 1 /\
   center_of w_overlap (0%nat, 1) <> center_of w_overlap (1%nat, 1) /\
   exists w', uncollide rnd_half 0 1 w_overlap = Ok true w' /\ draws w' = 1%nat).
Proof.
  exact (uncollide_outcomes rnd_half 0 1 (0%nat, 1) (1%nat, 1) w_overlap
           eq_refl eq_refl).
Defined.

Lemma uncollide_symmetric_witness :
  same_outcome (uncollide rnd_half 0 1 w_overlap)
               (uncollide rnd_half 1 0 w_overlap).
Proof.
  exact (uncollide_symmetric rnd_half 0 1 (0%nat, 1) (1%nat, 1) w_overlap
           eq_refl eq_refl).
Defined.

Lemma uncollide_twice_witness :
  exists w',
    uncollide rnd_half 0 1 w_overlap = Ok true w' /\
    uncollide rnd_half 0 1 w' = Ok false w'.
Proof.
  exact (uncollide_twice rnd_half 0 1 (0%nat, 1) (1%nat, 1) w_overlap
           unit_draws_rnd_half eq_refl eq_refl centres_w_overlap
           overlap_w_overlap).
Defined.

Lemma push2area_repairs_witness :
  exists b w',
    push2area rnd_half 0 area15 w_left = Ok b w' /\
    -15 <= fst (center_of w' (0%nat, 2)) - 2.
Proof.
  destruct (push2area_repairs rnd_half 0 (0%nat, 2) area15 w_left)
    as (b & w' & Hrun & Hlow & _).
  - exact unit_draws_rnd_half.
  - reflexivity.
  - cbn. lra.
  - exists b, w'. split; [exact Hrun|]. apply Hlow. cbn. lra.
Defined.

Lemma process_list_unsatisfiable_witness :
  ~ exists v w',
      process_list rnd_half clock_unit 7 area_tiny w_narrow = Ok v w'.
Proof.
  intros (v & w' & Hrun).
  apply (process_list_unsatisfiable rnd_half clock_unit 7 area_tiny w_narrow
           0 (0%nat, 1)) with (v := v) (w' := w').
  - reflexivity.
  - left. cbn. lra.
  - exact Hrun.
Defined.

Lemma process_list_shared_centre_witness :
  ~ exists v w',
      process_list rnd_half clock_unit 7 area15 w_shared = Ok v w'.
Proof.
  intros (v & w' & Hrun).
  apply (process_list_shared_centre rnd_half clock_unit 7 area15 w_shared
           0 2 (0%nat, 1) (0%nat, 1)) with (v := v) (w' := w').
  - discriminate.
  - reflexivity.
  - reflexivity.
  - reflexivity.
  - cbn. lra.
  - exact Hrun.
Defined.

Lemma process_list_degenerate_witness :
  exists w',
    process_list rnd_half clock_unit 1 area15 w_coincident =
    Raise ZeroDivisionError w' /\
    vecs w' = vecs w_coincident /\
    out w' = [PrintRemoving 2; PrintChecking 1].
Proof.
  apply (process_list_degenerate rnd_half clock_unit 0 area15 w_coincident
           (0%nat, 1) (1%nat, 1)).
  - reflexivity.
  - reflexivity.
  - reflexivity.
  - cbn. lra.
Defined.

Lemma process_list_output_witness :
  exists w' m,
    process_list rnd_half clock_unit 1 area15 w_apart = Ok PyNone w' /\
    (1 <= m <= 1)%nat /\
    out w' = [PrintRemoving 2; PrintChecking 1]
               ++ repeat Warning (m - 120)
               ++ [PrintDone (clock_unit 1 - clock_unit 0) m].
Proof.
  destruct (process_list_quiet rnd_half clock_unit 0 area15 w_apart
              no_overlap_w_apart all_inside_w_apart) as (w' & Hrun & _).
  destruct (process_list_output rnd_half clock_unit 1 area15 w_apart
              PyNone w' Hrun) as (m & Hm & Hout).
  exists w', m. split; [exact Hrun|]. split; [exact Hm|exact Hout].
Defined.

Lemma r_lims_main_ordered : fst r_lims_main <= snd r_lims_main.
Proof. cbn. lra. Qed.

Lemma gen_discs_radii_witness :
  exists ds w',
    gen_discs rnd_half 0%nat 2 area15 r_lims_main w_apart = Ok (map Some ds) w' /\
    Forall (fun d => 0.3 <= snd d <= 0.7) ds.
Proof.
  exact (gen_discs_radii rnd_half 0%nat 2 area15 r_lims_main w_apart
           unit_draws_rnd_half r_lims_main_ordered).
Defined.

Lemma gen_discs_inside_witness :
  exists ds w',
    gen_discs rnd_half 0%nat 2 area15 r_lims_main w_apart = Ok (map Some ds) w' /\
    all_inside (install ds w') area15.
Proof.
  apply (gen_discs_inside rnd_half 0%nat 2 area15 r_lims_main w_apart
           unit_draws_rnd_half r_lims_main_ordered).
  - cbn. lra.
  - cbn. lra.
Defined.

Lemma gen_discs_frame_witness :
  exists ds w',
    gen_discs rnd_half 0%nat 3 area15 r_lims_main w_apart = Ok (map Some ds) w' /\
    disc_at (final (uncollide rnd_half 0 1 (install ds w'))) 2 =
    disc_at (install ds w') 2.
Proof.
  destruct (gen_discs_frame rnd_half 0%nat 3 area15 r_lims_main w_apart)
    as (ds & w' & Hrun & Hu & _).
  exists ds, w'. split; [exact Hrun|].
  apply Hu; discriminate.
Defined.

Lemma dlist2plot_circles_witness :
  exists drawn,
    dlist2plot [] (Some palette_two) w_three = Ok ([] ++ drawn) w_three /\
    length drawn = 3%nat /\
    exists c,
      palette_color (Some palette_two) 2 = Some c /\
      nth_error drawn 2 = Some (circle_of w_three (2%nat, 1) c).
Proof.
  destruct (dlist2plot_circles [] (Some palette_two) w_three)
    as (drawn & Hrun & Hlen & Hall).
  - discriminate.
  - exists drawn. split; [exact Hrun|]. split; [exact Hlen|].
    apply Hall. reflexivity.
Defined.

Lemma dlist2plot_empty_palette_witness :
  dlist2plot [] (Some []) w_apart = Raise IndexError w_apart.
Proof.
  apply (proj2 (dlist2plot_empty_palette [] w_apart)). discriminate.
Defined.

Lemma plot_uncolliding_w_apart :
  exists r w',
    plot_uncolliding rnd_half clock_unit 1 env_empty area15 None w_apart =
    Ok r w'.
Proof.
  destruct (process_list_quiet rnd_half clock_unit 0 area15 w_apart
              no_overlap_w_apart all_inside_w_apart) as (w' & Hrun & Hl & _).
  unfold plot_uncolliding. cbv zeta. unfold bind at 1.
  rewrite (dlist2plot_eq [] None (fun _ => "#5B9279"%string) w_apart)
    by reflexivity.
  unfold bind at 1. rewrite Hrun. unfold bind at 1.
  rewrite (dlist2plot_eq [] None (fun _ => "#5B9279"%string) w')
    by reflexivity.
  eexists. eexists. reflexivity.
Qed.

Lemma plot_uncolliding_picture_witness :
  exists env' (ax0 ax1 : axes) log w',
    plot_uncolliding rnd_half clock_unit 1 env_empty area15 None w_apart =
    Ok (env', ax0, ax1, log) w' /\
    length ax1 = 3%nat /\ no_overlap w' /\ all_inside w' area15.
Proof.
  destruct plot_uncolliding_w_apart as ([[[env' ax0] ax1] log] & w' & Hrun).
  destruct (plot_uncolliding_picture rnd_half clock_unit 1 env_empty area15
              None w_apart env' ax0 ax1 log w' Hrun)
    as (_ & _ & _ & Hlen & _ & Hno & Hin).
  exists env', ax0, ax1, log, w'.
  split; [exact Hrun|]. split; [exact Hlen|]. split; [exact Hno|exact Hin].
Defined.

Lemma suppress_qt_debug_environ_witness :
  suppress_qt_debug env_empty "HOME"%string = env_empty "HOME"%string.
Proof.
  apply (proj1 (proj2 (proj2 (suppress_qt_debug_environ env_empty))));
    discriminate.
Defined.
